(** * Check Character Calculator: [src/js/functions.js]

    A shallow embedding of the location-code functions [convertToWord],
    [getPhonetic], [getCheck] and [handleSpecialLocation], together with
    the JavaScript string primitives they call, and the properties of
    the phonetic rendering, the check character and the special-location
    rules. *)

From Stdlib Require Import String Ascii.
From Stdlib Require Import List NArith ZArith Bool Lia ZifyBool.
Import ListNotations.

Set Warnings "-notation-for-abbreviation".

Local Open Scope Z_scope.

(** ** JavaScript values *)

(** A JavaScript string is a sequence of UTF-16 code units.  Code units
    are numbers below 2^16; for those every sum formed by [getCheck] is
    far below 2^53, so the integer arithmetic here is the arithmetic of
    the program's doubles. *)
Notation code_unit := N (only parsing).
Notation jsstring := (list code_unit) (only parsing).

(** String literals of the source (all of them are plain ASCII). *)
Definition str (s : string) : jsstring :=
  map N_of_ascii (list_ascii_of_string s).
Arguments str s%_string.

(** A JavaScript number as far as the program needs it: an integer or
    [NaN]. *)
Inductive number : Type :=
| NaN
| Num (z : Z).

(** A value that is either a string or [undefined]. *)
Notation value := (option jsstring) (only parsing).
Notation undefined := (@None jsstring) (only parsing).

(** String concatenation [s + v]: [undefined] is converted to the text
    "undefined". *)
Definition ToString (v : value) : jsstring :=
  match v with
  | Some s => s
  | None => str "undefined"
  end.

(** [a === b] on strings. *)
Fixpoint strict_eq (a b : jsstring) : bool :=
  match a, b with
  | [], [] => true
  | x :: a', y :: b' => N.eqb x y && strict_eq a' b'
  | _, _ => false
  end.

Definition size (s : jsstring) : Z := Z.of_nat (length s).

(** [s.substr(start, length)] (ECMAScript B.2.2.1): a negative [start]
    counts from the end, [length] is clamped to what is left. *)
Definition substr (s : jsstring) (start len : Z) : jsstring :=
  let intStart :=
    if start <? 0 then Z.max (size s + start) 0 else Z.min start (size s) in
  let intLength := Z.min (Z.max len 0) (size s) in
  let intEnd := Z.min (intStart + intLength) (size s) in
  firstn (Z.to_nat (intEnd - intStart)) (skipn (Z.to_nat intStart) s).

(** [s.substr(start)]: with the length left out, the length is the
    size of the string. *)
Definition substr_from (s : jsstring) (start : Z) : jsstring :=
  substr s start (size s).

(** [s.charCodeAt(pos)]: [NaN] out of range. *)
Definition charCodeAt (s : jsstring) (pos : Z) : number :=
  if (0 <=? pos) && (pos <? size s)
  then Num (Z.of_N (nth (Z.to_nat pos) s 0%N))
  else NaN.

(** [String.fromCharCode(n)]: the argument is taken modulo 2^16, [NaN]
    becomes 0. *)
Definition fromCharCode (n : number) : jsstring :=
  match n with
  | NaN => [0%N]
  | Num z => [Z.to_N (z mod 65536)]
  end.

(** Arithmetic on numbers; [NaN] is absorbing.  [%] is the remainder
    that takes the sign of the dividend. *)
Definition num_add (a b : number) : number :=
  match a, b with
  | Num x, Num y => Num (x + y)
  | _, _ => NaN
  end.

Definition num_mul (a b : number) : number :=
  match a, b with
  | Num x, Num y => Num (x * y)
  | _, _ => NaN
  end.

Definition num_rem (a b : number) : number :=
  match a, b with
  | Num x, Num y => if y =? 0 then NaN else Num (Z.rem x y)
  | _, _ => NaN
  end.

(** [arr[n]] for a number [n]: [undefined] unless [n] is an index of
    the array. *)
Definition array_get (arr : list jsstring) (n : number) : value :=
  match n with
  | NaN => undefined
  | Num z => if z <? 0 then undefined else nth_error arr (Z.to_nat z)
  end.

Definition is_digit (c : code_unit) : bool :=
  (48 <=? c)%N && (c <=? 57)%N.

(** [arr[key]] for a string key and an array of at most ten elements:
    the key names an element only when it is the decimal numeral of an
    index, so only a single digit can. *)
Definition array_get_key (arr : list jsstring) (key : jsstring) : value :=
  match key with
  | [c] => if is_digit c then nth_error arr (N.to_nat (c - 48)) else undefined
  | _ => undefined
  end.

(** White space and line terminators of ECMAScript: what [trim] strips
    and what [Number] ignores around a numeral. *)
Definition is_whitespace (c : code_unit) : bool :=
  ((9 <=? c) && (c <=? 13) || (c =? 32) || (c =? 160) || (c =? 5760)
   || (8192 <=? c) && (c <=? 8202) || (c =? 8232) || (c =? 8233)
   || (c =? 8239) || (c =? 8287) || (c =? 12288) || (c =? 65279))%N.

(** [isNaN(s)] for a string of at most one code unit, which is all
    [convertToWord] passes: [Number("")] and [Number] of a white space
    character are 0, [Number] of a digit is its value, every other
    single character gives [NaN]. *)
Definition isNaN (s : jsstring) : bool :=
  match s with
  | [] => false
  | c :: _ => negb (is_digit c || is_whitespace c)
  end.

Fixpoint dropWhile (p : code_unit -> bool) (s : jsstring) : jsstring :=
  match s with
  | [] => []
  | c :: s' => if p c then dropWhile p s' else s
  end.

(** [$.trim(s)] and [s.trim()]: white space removed at both ends. *)
Definition trim (s : jsstring) : jsstring :=
  rev (dropWhile is_whitespace (rev (dropWhile is_whitespace s))).

(** Upper-casing of the Basic Latin block. *)
Definition upper_ascii (c : code_unit) : code_unit :=
  if (97 <=? c)%N && (c <=? 122)%N then (c - 32)%N else c.

Definition is_ascii (c : code_unit) : Prop := (c < 128)%N.

(** An upper-casing function that knows the Basic Latin block only. *)
Definition asciiUpperCase (s : jsstring) : jsstring := map upper_ascii s.

(** [s.charAt(pos)]: the empty string out of range. *)
Definition charAt (s : jsstring) (pos : Z) : jsstring :=
  if (0 <=? pos) && (pos <? size s)
  then [nth (Z.to_nat pos) s 0%N]
  else [].

Definition is_alnum (c : code_unit) : bool :=
  (is_digit c || (65 <=? c) && (c <=? 90) || (97 <=? c) && (c <=? 122))%N.

Definition is_sign (c : code_unit) : bool :=
  ((c =? 43) || (c =? 45))%N.

(** Whether [s.match(/^[0-9A-Za-z]+$/)] finds a match: the string has
    one code unit or more, all of them in the class. *)
Definition match_alnum (s : jsstring) : bool :=
  negb (strict_eq s []) && forallb is_alnum s.

(** Whether [s.match(/^[+-]+$/)] finds a match. *)
Definition match_sign (s : jsstring) : bool :=
  negb (strict_eq s []) && forallb is_sign s.

(** ** The page *)

(** The two elements of the page the program writes to, each with its
    text. *)
Record page : Type := mkPage {
  phoneticDiv : jsstring;
  checkDiv : jsstring
}.

(** [phoneticDiv.text(v)] and [checkDiv.text(v)].  jQuery's setter
    leaves the text alone when it is handed [undefined]. *)
Definition set_phonetic (v : value) (pg : page) : page :=
  match v with
  | Some s => mkPage s (checkDiv pg)
  | None => pg
  end.

Definition set_check (v : value) (pg : page) : page :=
  match v with
  | Some s => mkPage (phoneticDiv pg) s
  | None => pg
  end.

(** A page with no text in either element. *)
Definition blank_page : page := mkPage (str "") (str "").

(** ** The tables *)

Definition letters : list jsstring :=
  [str "ALPHA"; str "BRAVO"; str "CHARLIE"; str "DELTA"; str "ECHO";
   str "FOXTROT"; str "GOLF"; str "HOTEL"; str "INDIA"; str "JULIET";
   str "KILO"; str "LIMA"; str "MIKE"; str "NOVEMBER"; str "OSCAR";
   str "PAPA"; str "QUEBEC"; str "ROMEO"; str "SIERRA"; str "TANGO";
   str "UNIFORM"; str "VICTOR"; str "WHISKEY"; str "X-RAY"; str "YANKEE";
   str "ZULU"].

Definition numbers : list jsstring :=
  [str "ZERO"; str "ONE"; str "TWO"; str "THREE"; str "FOUR"; str "FIVE";
   str "SIX"; str "SEVEN"; str "EIGHT"; str "NINE"].

(** ** The program *)

Section Program.

(** [String.prototype.toUpperCase] follows the Unicode case tables; the
    program is modelled over any such function that upper-cases the
    Basic Latin block the usual way. *)
Variable toUpperCase : jsstring -> jsstring.
Hypothesis toUpperCase_ascii :
  forall s, Forall is_ascii s -> toUpperCase s = map upper_ascii s.

(** [convertToWord(character)] *)
Definition convertToWord (character : jsstring) : value :=
  let character := substr character 0 1 in
  if negb (isNaN character) then array_get_key numbers character
  else array_get letters
         (num_add (charCodeAt (toUpperCase character) 0) (Num (-65))).

(** The test of the [if] in the loop of [getPhonetic]. *)
Definition not_plus (location : jsstring) (i : Z) : bool :=
  negb (strict_eq (substr location i (i + 1)) (str "+"))
  && negb (strict_eq (substr location i (i + 1)) (str "+")).

(** One round of the loop of [getPhonetic]. *)
Definition getPhonetic_body (location : jsstring) (result : jsstring)
    (i : Z) : jsstring :=
  let result :=
    if not_plus location i
    then result ++ ToString (convertToWord (toUpperCase (substr location i (i + 1))))
    else result in
  if negb (i =? size location - 1) then result ++ str " " else result.

(** The values [from], [from + 1], ... a [for] loop counter takes. *)
Definition counter (from : Z) (rounds : nat) : list Z :=
  map Z.of_nat (seq (Z.to_nat from) rounds).

(** [getPhonetic(location)] *)
Definition getPhonetic (location : jsstring) : jsstring :=
  fold_left (getPhonetic_body location) (counter 0 (length location)) [].

(** The sum the loop of [getCheck] builds, for [j] from 2 to 5. *)
Definition getCheck_sum (location : jsstring) : number :=
  fold_left
    (fun i j =>
       num_add i (num_mul (charCodeAt location (Z.rem j 4))
                          (Num (Z.rem j 3 * 2 + 3))))
    (counter 2 4) (Num 0).

(** [getCheck(location)] *)
Definition getCheck (location : jsstring) : value :=
  if negb (size location =? 4) then Some (str "NONE")
  else
    let i := getCheck_sum location in
    convertToWord (fromCharCode (num_add (num_rem i (Num 26)) (Num 65))).

(** [handleSpecialLocation(location)]: the result is whether the
    function returned [true] (it returns nothing otherwise), and the
    page as the call leaves it.  Every call, the outermost one too,
    uses up one unit of [fuel]; [None] means the fuel ran out. *)
Fixpoint handleSpecialLocation_fuel (fuel : nat) (location : jsstring)
    (pg : page) : option (bool * page) :=
  match fuel with
  | O => None
  | S fuel' =>
    if strict_eq (substr_from location (-1)) (str "+")
       || strict_eq (substr_from location (-1)) (str "-")
    then
      let prefix : value :=
        if strict_eq (substr_from location (-1)) (str "+")
        then Some (str "AFTER ")
        else if strict_eq (substr_from location (-1)) (str "-")
        then Some (str "BEFORE ")
        else undefined in
      match handleSpecialLocation_fuel fuel'
              (substr location 0 (size location - 1)) pg with
      | None => None
      | Some (special, pg) =>
        let pg :=
          if special
          then set_phonetic (Some (ToString prefix ++ phoneticDiv pg)) pg
          else set_phonetic
                 (Some (ToString prefix
                        ++ getPhonetic (substr location 0 (size location - 1))))
                 pg in
        let pg := set_check (getCheck location) pg in
        Some (true, pg)
      end
    else if strict_eq location (str "SOB") then
      let pg := set_phonetic (Some (str "SOB")) pg in
      let pg := set_check (Some (str "SIERRA")) pg in
      Some (true, pg)
    else if strict_eq location (str "DPA") then
      let pg := set_phonetic (Some (str "DPA")) pg in
      let pg := set_check (Some (str "VICTOR")) pg in
      Some (true, pg)
    else if strict_eq location (str "RETS") then
      let pg := set_phonetic (Some (str "RETURNS")) pg in
      let pg := set_check (getCheck location) pg in
      Some (true, pg)
    else if strict_eq (substr location 0 2) (str "CA") then
      let pg := set_phonetic
        (Some (trim (str "CASH OFFICE " ++ getPhonetic (substr location 2 4))))
        pg in
      let pg := set_check (getCheck location) pg in
      Some (true, pg)
    else if strict_eq (substr location 0 2) (str "CP") then
      let pg := set_phonetic
        (Some (trim (str "COLLECTION POINT "
                     ++ getPhonetic (substr location 2 4))))
        pg in
      let pg := set_check (getCheck location) pg in
      Some (true, pg)
    else if strict_eq (substr location 0 1) (str "J") then
      let pg := set_phonetic
        (Some (trim (str "JEWELLERY " ++ getPhonetic (substr location 1 4))))
        pg in
      let pg := set_check (getCheck location) pg in
      Some (true, pg)
    else if strict_eq (substr location 0 1) (str "S") then
      let pg := set_phonetic
        (Some (trim (str "SECURITY " ++ getPhonetic (substr location 1 4))))
        pg in
      let pg := set_check (getCheck location) pg in
      Some (true, pg)
    else if strict_eq (substr location 0 1) (str "L") then
      let pg := set_phonetic
        (Some (trim (getPhonetic (substr location 1 2) ++ str " LINBIN "
                     ++ getPhonetic (substr location 3 4))))
        pg in
      let pg := set_check (getCheck location) pg in
      Some (true, pg)
    else if strict_eq (substr location 0 1) (str "Z") then
      let pg := set_phonetic
        (Some (trim (getPhonetic (substr location 1 2) ++ str " BULK "
                     ++ trim (getPhonetic (substr location 3 4)))))
        pg in
      let pg := set_check (getCheck location) pg in
      Some (true, pg)
    else Some (false, pg)
  end.

(** The call as the program makes it: a call on a string of [n] code
    units nests at most [n] further calls (see
    [handleSpecialLocation_fuel_enough]). *)
Definition handleSpecialLocation (location : jsstring) (pg : page)
    : bool * page :=
  match handleSpecialLocation_fuel (S (length location)) location pg with
  | Some r => r
  | None => (false, pg)
  end.


(** One round of the loop of [filterLocation]. *)
Definition filterLocation_body (input : jsstring) (filtered : jsstring)
    (i : Z) : jsstring :=
  if match_alnum (charAt input i)
     || (i =? 3) && match_sign (charAt input i)
  then filtered ++ charAt input i
  else filtered.

(** The loop of [filterLocation]: it runs while [i < input.length] and
    [i < 4]. *)
Definition filterLocation_filtered (input : jsstring) : jsstring :=
  fold_left (filterLocation_body input)
            (counter 0 (Nat.min (length input) 4)) [].

(** [filterLocation(input)]: the string returned, and the page as the
    call leaves it. *)
Definition filterLocation (input : jsstring) (pg : page) : jsstring * page :=
  let filtered := filterLocation_filtered input in
  let (special, pg) := handleSpecialLocation (toUpperCase filtered) pg in
  let pg :=
    if negb special
    then
      let pg :=
        set_phonetic
          (Some (if size filtered =? 0 then str "NONE"
                 else getPhonetic (toUpperCase filtered)))
          pg in
      set_check (getCheck (toUpperCase filtered)) pg
    else pg in
  (filtered, pg).


(** What a call of [handleSpecialLocation] on a blank page leaves for
    a special location: the phonetic and the check. *)
Definition classify (location : jsstring) : option (jsstring * jsstring) :=
  let (special, pg) := handleSpecialLocation location blank_page in
  if special then Some (phoneticDiv pg, checkDiv pg) else None.

(** ** What the specification says, in its own words *)

(** The weighted sum of the check character: the terms [j = 2, 3, 4, 5],
    each the character code at position [j mod 4] times the weight
    [(j mod 3) * 2 + 3]. *)
Definition spec_weighted_sum (code : jsstring) : N :=
  fold_right N.add 0%N
    (map (fun j => (nth (N.to_nat (j mod 4)) code 0 * ((j mod 3) * 2 + 3))%N)
         [2; 3; 4; 5]%N).

(** The letter [chr(sum mod 26 + 'A')]. *)
Definition spec_check_letter (code : jsstring) : code_unit :=
  (spec_weighted_sum code mod 26 + 65)%N.

(** The word of a letter in the letter table, by [charCode - 'A']. *)
Definition letter_word (c : code_unit) : value :=
  nth_error letters (N.to_nat (c - 65)).

(** The word of one character: a digit by the number table, a letter by
    the letter table at [charCode - 'A']. *)
Definition phonetic_word (c : code_unit) : jsstring :=
  if is_digit c then nth (N.to_nat (c - 48)) numbers []
  else nth (N.to_nat (c - 65)) letters [].

(** Words joined with one space between them. *)
Fixpoint join_words (words : list jsstring) : jsstring :=
  match words with
  | [] => []
  | w :: rest =>
    match rest with
    | [] => w
    | _ :: _ => w ++ str " " ++ join_words rest
    end
  end.

(** The characters the input filter lets through, upper-cased: digits
    and capital letters. *)
Definition is_upper_alnum (c : code_unit) : bool :=
  is_digit c || (65 <=? c)%N && (c <=? 90)%N.

(** [getPhonetic] with the second comparison with '+' deleted. *)
Definition getPhonetic_once_body (location : jsstring) (result : jsstring)
    (i : Z) : jsstring :=
  let result :=
    if negb (strict_eq (substr location i (i + 1)) (str "+"))
    then result ++ ToString (convertToWord (toUpperCase (substr location i (i + 1))))
    else result in
  if negb (i =? size location - 1) then result ++ str " " else result.

Definition getPhonetic_once (location : jsstring) : jsstring :=
  fold_left (getPhonetic_once_body location) (counter 0 (length location)) [].

(** The test of the first rule of [handleSpecialLocation]: the last
    character is '+' or '-'. *)
Definition relative_suffix (location : jsstring) : bool :=
  strict_eq (substr_from location (-1)) (str "+")
  || strict_eq (substr_from location (-1)) (str "-").

(** ** Descriptions used in the properties of the rest of the program *)

(** Whether the loop of [filterLocation] keeps the character [c] it
    finds at position [i]. *)
Definition keeps (i : Z) (c : code_unit) : bool :=
  is_alnum c || (i =? 3) && is_sign c.

(** The characters kept from [s], whose first character is at position
    [i], in [rounds] rounds. *)
Fixpoint kept_from (i : Z) (s : jsstring) (rounds : nat) {struct rounds}
    : jsstring :=
  match rounds, s with
  | S rounds', c :: s' =>
    (if keeps i c then [c] else []) ++ kept_from (i + 1) s' rounds'
  | _, _ => []
  end.

Definition is_empty (s : jsstring) : bool :=
  match s with
  | [] => true
  | _ :: _ => false
  end.

(** What one character of an ASCII string adds to the phonetic: nothing
    for a '+' that is first or last, the word [convertToWord] has for the
    capital of the character otherwise. *)
Definition round_word (first last : bool) (c : code_unit) : jsstring :=
  if (c =? 43)%N && (first || last) then []
  else ToString (convertToWord [upper_ascii c]).

(** The phonetic of an ASCII string, character by character. *)
Fixpoint phonetic_from (first : bool) (s : jsstring) : jsstring :=
  match s with
  | [] => []
  | c :: s' =>
    match s' with
    | [] => round_word first true c
    | _ :: _ => round_word first false c ++ str " " ++ phonetic_from false s'
    end
  end.

(** A string with no white space at either end, and not empty. *)
Definition tight (s : jsstring) : Prop :=
  s <> [] /\ is_whitespace (hd 0%N s) = false
  /\ is_whitespace (last s 0%N) = false.

(** ** Proof support *)

(** Decides the tests of the rules on a given string. *)
Ltac decide_rules :=
  repeat match goal with
         | |- context [if ?b then _ else _] =>
           let v := eval vm_compute in b in
           change b with v; cbv iota
         end.

(** ** Strings and their primitives *)

Lemma strict_eq_true (a b : jsstring) : strict_eq a b = true <-> a = b.
Proof.
  revert b; induction a as [|x a IH]; intros [|y b]; simpl;
    try (split; [discriminate | congruence]); try tauto.
  rewrite andb_true_iff, N.eqb_eq, IH. split.
  - intros [-> ->]; reflexivity.
  - intros H; injection H; auto.
Qed.

Lemma strict_eq_false (a b : jsstring) : strict_eq a b = false <-> a <> b.
Proof.
  rewrite <- strict_eq_true. destruct (strict_eq a b); split; congruence.
Qed.

Lemma size_cons (c : code_unit) (s : jsstring) : size (c :: s) = size s + 1.
Proof. unfold size; simpl length; lia. Qed.

Lemma size_nonneg (s : jsstring) : 0 <= size s.
Proof. unfold size; lia. Qed.

Lemma size_app (a b : jsstring) : size (a ++ b) = size a + size b.
Proof. unfold size; rewrite length_app; lia. Qed.

Lemma firstn_min_length {A} (n : nat) (l : list A) :
  firstn (Nat.min n (length l)) l = firstn n l.
Proof.
  destruct (Nat.le_ge_cases n (length l)).
  - rewrite Nat.min_l by lia. reflexivity.
  - rewrite Nat.min_r by lia. rewrite !firstn_all2 by lia. reflexivity.
Qed.

(** With a start that is not negative, [substr] is [skipn] followed by
    [firstn]: the clamping is theirs. *)
Lemma substr_nat (s : jsstring) (a n : nat) :
  substr s (Z.of_nat a) (Z.of_nat n) = firstn n (skipn a s).
Proof.
  unfold substr, size.
  destruct (Z.ltb_spec (Z.of_nat a) 0) as [?|_]; [lia|].
  destruct (Nat.le_gt_cases (length s) a) as [Hge|Hlt].
  - rewrite (Z.min_r (Z.of_nat a)) by lia. rewrite Nat2Z.id.
    rewrite !skipn_all2 by lia. rewrite !firstn_nil. reflexivity.
  - rewrite (Z.min_l (Z.of_nat a)) by lia. rewrite Nat2Z.id.
    rewrite <- (firstn_min_length n). rewrite length_skipn. f_equal. lia.
Qed.

Lemma substr_pos (s : jsstring) (start len : Z) :
  0 <= start -> 0 <= len ->
  substr s start len = firstn (Z.to_nat len) (skipn (Z.to_nat start) s).
Proof.
  intros. rewrite <- substr_nat. rewrite !Z2Nat.id by lia. reflexivity.
Qed.

Lemma substr_0_1_cons (c : code_unit) (s : jsstring) :
  substr (c :: s) 0 1 = [c].
Proof. rewrite substr_pos by lia. reflexivity. Qed.

(** The substring the loop of [getPhonetic] looks at in round [i]: it
    starts at the character at [i] and has [i + 1] characters, as far
    as the string goes. *)
Lemma substr_round (pre : jsstring) (c : code_unit) (suf : jsstring) :
  substr (pre ++ c :: suf) (size pre) (size pre + 1)
  = c :: firstn (length pre) suf.
Proof.
  pose proof (size_nonneg pre).
  rewrite substr_pos by lia.
  replace (Z.to_nat (size pre)) with (length pre) by (unfold size; lia).
  replace (Z.to_nat (size pre + 1)) with (S (length pre)) by (unfold size; lia).
  rewrite skipn_app, skipn_all, Nat.sub_diag. reflexivity.
Qed.

(** The last character, as [substr(-1)] gives it. *)
Lemma substr_from_last (pre : jsstring) (c : code_unit) :
  substr_from (pre ++ [c]) (-1) = [c].
Proof.
  unfold substr_from, substr. rewrite size_app. change (size [c]) with 1.
  pose proof (size_nonneg pre). 
  change (-1 <? 0) with true. cbv iota.
  rewrite Z.max_l by lia.
  replace (Z.to_nat (size pre + 1 + -1)) with (length pre)
    by (unfold size; lia).
  rewrite skipn_app, skipn_all, Nat.sub_diag. simpl skipn. simpl app.
  replace (Z.to_nat _) with 1%nat by lia. reflexivity.
Qed.

Lemma substr_from_nil : substr_from [] (-1) = [].
Proof. reflexivity. Qed.

(** All but the last character, as [substr(0, length - 1)] gives it. *)
Lemma substr_init (pre : jsstring) (c : code_unit) :
  substr (pre ++ [c]) 0 (size (pre ++ [c]) - 1) = pre.
Proof.
  pose proof (size_nonneg pre).
  rewrite size_app. change (size [c]) with 1.
  rewrite substr_pos by lia.
  replace (Z.to_nat _) with (length pre) by (unfold size; lia).
  simpl skipn.
  rewrite firstn_app, firstn_all, Nat.sub_diag. simpl. apply app_nil_r.
Qed.

(** A string is empty or has a last character. *)
Lemma last_char_cases (s : jsstring) :
  s = [] \/ exists pre c, s = pre ++ [c].
Proof.
  destruct s as [|c s]; [left; reflexivity | right].
  destruct (@exists_last _ (c :: s)) as [pre [d ->]]; [discriminate | eauto].
Qed.


(** ** The tables and [convertToWord] *)

Lemma N_below (P : N -> Prop) (n : nat) :
  (forall i, (i < n)%nat -> P (N.of_nat i)) ->
  forall k, (k < N.of_nat n)%N -> P k.
Proof.
  intros H k Hk. rewrite <- (N2Nat.id k). apply H. lia.
Qed.

(** Only the first character of the argument counts. *)
Lemma convertToWord_cons (c : code_unit) (s : jsstring) :
  convertToWord (c :: s) = convertToWord [c].
Proof. unfold convertToWord. rewrite !substr_0_1_cons. reflexivity. Qed.

Lemma toUpperCase_single (c : code_unit) :
  is_ascii c -> toUpperCase [c] = [upper_ascii c].
Proof. intros H. rewrite toUpperCase_ascii; auto. Qed.

(** The 26 capital letters go to the letter table. *)
Lemma convertToWord_letter (k : N) :
  (k < 26)%N ->
  isNaN (substr [(65 + k)%N] 0 1) = true
  /\ convertToWord [(65 + k)%N] = nth_error letters (N.to_nat k).
Proof.
  revert k. apply (N_below _ 26). intros i Hi.
  unfold convertToWord. rewrite substr_0_1_cons.
  rewrite toUpperCase_single by (unfold is_ascii; lia).
  do 26 (destruct i as [|i]; [split; reflexivity|]). lia.
Qed.

(** The ten digits go to the number table. *)
Lemma convertToWord_digit (k : N) :
  (k < 10)%N ->
  convertToWord [(48 + k)%N] = nth_error numbers (N.to_nat k).
Proof.
  revert k. apply (N_below _ 10). intros i Hi.
  unfold convertToWord. rewrite substr_0_1_cons.
  do 10 (destruct i as [|i]; [reflexivity|]). lia.
Qed.

(** No word of the letter table is "NONE", and none has a space. *)
Lemma letters_single_word (w : jsstring) :
  In w letters -> w <> str "NONE" /\ ~ In 32%N w.
Proof.
  assert (H : forallb (fun w => negb (strict_eq w (str "NONE"))
                                && negb (existsb (N.eqb 32) w)) letters = true)
    by reflexivity.
  rewrite forallb_forall in H. intros Hin. specialize (H w Hin).
  rewrite andb_true_iff, !negb_true_iff in H. destruct H as [H1 H2]. split.
  - apply strict_eq_false. exact H1.
  - intros Hs. assert (existsb (N.eqb 32) w = true); [|congruence].
    apply existsb_exists. exists 32%N. split; [exact Hs | reflexivity].
Qed.

Lemma letters_NoDup : NoDup letters.
Proof.
  repeat (constructor; [simpl; intuition discriminate|]). constructor.
Qed.

(** ** The check character *)

Lemma getCheck_sum_4 (c0 c1 c2 c3 : code_unit) :
  getCheck_sum [c0; c1; c2; c3]
  = Num (Z.of_N c2 * 7 + Z.of_N c3 * 3 + Z.of_N c0 * 5 + Z.of_N c1 * 7).
Proof. reflexivity. Qed.

Lemma spec_weighted_sum_4 (c0 c1 c2 c3 : code_unit) :
  spec_weighted_sum [c0; c1; c2; c3] = (7 * c2 + 3 * c3 + 5 * c0 + 7 * c1)%N.
Proof.
  change (spec_weighted_sum [c0; c1; c2; c3])
    with (c2 * 7 + (c3 * 3 + (c0 * 5 + (c1 * 7 + 0))))%N.
  lia.
Qed.

Lemma length_4 (location : jsstring) :
  length location = 4%nat ->
  exists c0 c1 c2 c3, location = [c0; c1; c2; c3].
Proof.
  destruct location as [|c0 [|c1 [|c2 [|c3 [|? ?]]]]]; try discriminate.
  intros _. eauto.
Qed.

(** On four characters [getCheck] hands to [convertToWord] the capital
    letter of the weighted sum modulo 26. *)
Lemma getCheck_4 (c0 c1 c2 c3 : code_unit) :
  getCheck [c0; c1; c2; c3]
  = convertToWord [spec_check_letter [c0; c1; c2; c3]].
Proof.
  unfold getCheck. change (size [c0; c1; c2; c3] =? 4) with true.
  cbv beta iota delta [negb]. rewrite getCheck_sum_4.
  unfold spec_check_letter. rewrite spec_weighted_sum_4.
  set (s := Z.of_N c2 * 7 + Z.of_N c3 * 3 + Z.of_N c0 * 5 + Z.of_N c1 * 7).
  assert (Hs : 0 <= s) by (unfold s; lia).
  unfold num_rem, num_add. change (26 =? 0) with false. cbv iota.
  rewrite Z.rem_mod_nonneg by lia.
  unfold fromCharCode. f_equal. f_equal.
  pose proof (Z.mod_pos_bound s 26 ltac:(lia)).
  rewrite Z.mod_small by lia.
  replace s with (Z.of_N (7 * c2 + 3 * c3 + 5 * c0 + 7 * c1)) by (unfold s; lia).
  change 26 with (Z.of_N 26). rewrite <- N2Z.inj_mod.
  generalize ((7 * c2 + 3 * c3 + 5 * c0 + 7 * c1) mod 26)%N. intros r. lia.
Qed.

Lemma spec_check_letter_range (code : jsstring) :
  exists k, (k < 26)%N /\ spec_check_letter code = (65 + k)%N.
Proof.
  exists (spec_weighted_sum code mod 26)%N. split.
  - apply N.mod_lt. discriminate.
  - unfold spec_check_letter. lia.
Qed.

(** [getCheck] always returns a string. *)
Lemma getCheck_defined (location : jsstring) :
  exists w, getCheck location = Some w.
Proof.
  destruct (Nat.eq_dec (length location) 4) as [H4|H4].
  - destruct (length_4 _ H4) as (c0 & c1 & c2 & c3 & ->).
    rewrite getCheck_4.
    destruct (spec_check_letter_range [c0; c1; c2; c3]) as (k & Hk & ->).
    destruct (convertToWord_letter k Hk) as [_ Hword].
    destruct (nth_error letters (N.to_nat k)) as [w|] eqn:E.
    + exists w. congruence.
    + apply nth_error_None in E. simpl in E. lia.
  - unfold getCheck. replace (size location =? 4) with false; [simpl; eauto|].
    symmetry. apply Z.eqb_neq. unfold size. lia.
Qed.

(** C1: for every code of four characters, [getCheck] is the word the
    letter table has for the letter [chr(sum mod 26 + 'A')], where the sum
    runs over [j = 2, 3, 4, 5] with the character code at position
    [j mod 4] times [(j mod 3) * 2 + 3]; the weights are 7, 3, 5, 7 on the
    positions 2, 3, 0, 1; and the letter is looked up in the letter
    table, [convertToWord] does not take its digit branch. *)
Theorem getCheck_weighted_letter (location : jsstring) :
  length location = 4%nat ->
  getCheck location = letter_word (spec_check_letter location)
  /\ spec_weighted_sum location
     = (7 * nth 2 location 0 + 3 * nth 3 location 0
        + 5 * nth 0 location 0 + 7 * nth 1 location 0)%N
  /\ (65 <= spec_check_letter location <= 90)%N
  /\ getCheck location = convertToWord [spec_check_letter location]
  /\ isNaN (substr [spec_check_letter location] 0 1) = true
  /\ exists w, getCheck location = Some w /\ In w letters.
Proof.
  intros H4. destruct (length_4 _ H4) as (c0 & c1 & c2 & c3 & ->).
  destruct (spec_check_letter_range [c0; c1; c2; c3]) as (k & Hk & Hl).
  destruct (convertToWord_letter k Hk) as [Hnan Hword].
  assert (Hget : getCheck [c0; c1; c2; c3] = nth_error letters (N.to_nat k))
    by (rewrite getCheck_4, Hl; exact Hword).
  repeat split.
  - rewrite Hget. unfold letter_word. rewrite Hl. f_equal. lia.
  - rewrite spec_weighted_sum_4. reflexivity.
  - lia.
  - lia.
  - apply getCheck_4.
  - rewrite Hl. exact Hnan.
  - destruct (getCheck_defined [c0; c1; c2; c3]) as [w Hw].
    exists w. split; [exact Hw|].
    apply nth_error_In with (n := N.to_nat k). congruence.
Qed.

(** C3: on a string whose length is not 4, [getCheck] returns "NONE"
    (the function is total: it has a result on every string); on a string
    of length 4 it returns one word of the letter table, which is not
    "NONE" and has no space in it. *)
Theorem getCheck_none_or_word (location : jsstring) :
  (length location <> 4%nat -> getCheck location = Some (str "NONE"))
  /\ (length location = 4%nat ->
      exists w, getCheck location = Some w /\ In w letters
                /\ w <> str "NONE" /\ ~ In 32%N w).
Proof.
  split; intros H4.
  - unfold getCheck. replace (size location =? 4) with false; [reflexivity|].
    symmetry. apply Z.eqb_neq. unfold size. lia.
  - destruct (length_4 _ H4) as (c0 & c1 & c2 & c3 & ->).
    destruct (spec_check_letter_range [c0; c1; c2; c3]) as (k & Hk & Hl).
    destruct (convertToWord_letter k Hk) as [_ Hword].
    destruct (getCheck_defined [c0; c1; c2; c3]) as [w Hw].
    assert (Hin : In w letters).
    { apply nth_error_In with (n := N.to_nat k).
      rewrite <- Hw, getCheck_4, Hl. symmetry. exact Hword. }
    exists w. split; [exact Hw|]. split; [exact Hin|].
    apply letters_single_word. exact Hin.
Qed.

(** C6: on four characters, one more in the character code of the last
    character moves the check letter three places on in the alphabet,
    modulo 26 (the words of the table are pairwise different, so the
    place of a word is determined); "AAAA" has check "ALPHA" and "AAAB"
    has "DELTA". *)
Theorem getCheck_last_plus_one (c0 c1 c2 c3 : code_unit) :
  (exists k, (k < 26)%nat
     /\ getCheck [c0; c1; c2; c3] = nth_error letters k
     /\ getCheck [c0; c1; c2; (c3 + 1)%N] = nth_error letters ((k + 3) mod 26))
  /\ NoDup letters
  /\ getCheck (str "AAAA") = Some (str "ALPHA")
  /\ getCheck (str "AAAB") = Some (str "DELTA").
Proof.
  assert (Hk : forall l, (spec_weighted_sum l mod 26 < 26)%N)
    by (intros; apply N.mod_lt; discriminate).
  assert (Hget : forall l, length l = 4%nat ->
            getCheck l = nth_error letters (N.to_nat (spec_weighted_sum l mod 26))).
  { intros l Hl. destruct (length_4 _ Hl) as (a & b & c & d & ->).
    rewrite getCheck_4. unfold spec_check_letter.
    rewrite N.add_comm. apply convertToWord_letter. apply Hk. }
  repeat split.
  - exists (N.to_nat (spec_weighted_sum [c0; c1; c2; c3] mod 26)).
    split; [specialize (Hk [c0; c1; c2; c3]); lia|].
    split; [apply Hget; reflexivity|].
    rewrite Hget by reflexivity. f_equal.
    rewrite !spec_weighted_sum_4.
    set (s := (7 * c2 + 3 * c3 + 5 * c0 + 7 * c1)%N).
    replace (7 * c2 + 3 * (c3 + 1) + 5 * c0 + 7 * c1)%N with (s + 3)%N
      by (unfold s; lia).
    rewrite <- (N.Div0.add_mod_idemp_l s 3 26).
    change 26%nat with (N.to_nat 26). change 3%nat with (N.to_nat 3).
    rewrite <- N2Nat.inj_add, <- N2Nat.inj_mod. reflexivity.
  - exact letters_NoDup.
  - rewrite Hget by reflexivity. reflexivity.
  - rewrite Hget by reflexivity. reflexivity.
Qed.


(** ** The phonetic rendering *)

Lemma In_firstn (n : nat) (l : jsstring) (x : code_unit) :
  In x (firstn n l) -> In x l.
Proof.
  intros H. rewrite <- (firstn_skipn n l). apply in_or_app. left. exact H.
Qed.

Lemma counter_S (a n : nat) :
  counter (Z.of_nat a) (S n) = Z.of_nat a :: counter (Z.of_nat (S a)) n.
Proof. unfold counter. rewrite !Nat2Z.id. reflexivity. Qed.

(** A position inside a string splits it. *)
Lemma split_at (location : jsstring) (i : Z) :
  0 <= i < size location ->
  exists pre c suf,
    location = pre ++ c :: suf /\ size pre = i
    /\ charCodeAt location i = Num (Z.of_N c).
Proof.
  intros Hi. unfold size in Hi.
  exists (firstn (Z.to_nat i) location), (nth (Z.to_nat i) location 0%N),
         (skipn (S (Z.to_nat i)) location).
  split; [|split].
  - rewrite <- (firstn_skipn (Z.to_nat i) location) at 1. f_equal.
    clear - Hi. assert (H : (Z.to_nat i < length location)%nat) by lia.
    clear Hi. revert H. generalize (Z.to_nat i) as n.
    induction location as [|x l IH]; intros [|n] H; simpl in *; try lia.
    + reflexivity.
    + apply IH. lia.
  - unfold size. rewrite length_firstn. lia.
  - unfold charCodeAt, size.
    destruct (Z.leb_spec 0 i); [|lia].
    destruct (Z.ltb_spec i (Z.of_nat (length location))); [|lia].
    reflexivity.
Qed.

(** The test in the loop fails exactly when the character is '+' and
    the substring stops after it: at position 0, where the substring has
    length 1, and at the last position, where the string ends. *)
Lemma not_plus_false (pre : jsstring) (c : code_unit) (suf : jsstring) :
  not_plus (pre ++ c :: suf) (size pre) = false
  <-> c = 43%N /\ (pre = [] \/ suf = []).
Proof.
  unfold not_plus. rewrite substr_round, andb_diag, negb_false_iff.
  rewrite strict_eq_true. change (str "+") with [43%N]. split.
  - intros H. injection H as -> H. split; [reflexivity|].
    destruct pre; [left; reflexivity|]. destruct suf; [right; reflexivity|].
    discriminate.
  - intros [-> [-> | ->]]; [reflexivity|]. rewrite firstn_nil. reflexivity.
Qed.

Lemma not_plus_true (pre : jsstring) (c : code_unit) (suf : jsstring) :
  c <> 43%N -> not_plus (pre ++ c :: suf) (size pre) = true.
Proof.
  intros Hc. destruct (not_plus (pre ++ c :: suf) (size pre)) eqn:E; auto.
  apply not_plus_false in E. tauto.
Qed.

Lemma is_last_round (pre : jsstring) (c : code_unit) (suf : jsstring) :
  (size pre =? size (pre ++ c :: suf) - 1) = match suf with [] => true | _ => false end.
Proof.
  rewrite size_app, size_cons. destruct suf.
  - apply Z.eqb_eq. change (size []) with 0. lia.
  - apply Z.eqb_neq. rewrite size_cons. pose proof (size_nonneg suf). lia.
Qed.

Lemma is_upper_alnum_ascii (c : code_unit) :
  is_upper_alnum c = true -> is_ascii c /\ upper_ascii c = c /\ c <> 43%N.
Proof.
  unfold is_upper_alnum, is_digit, is_ascii, upper_ascii. intros H.
  assert (Hlow : (97 <=? c)%N = false) by lia. rewrite Hlow. simpl. lia.
Qed.

(** A digit or capital letter goes to its word. *)
Lemma convertToWord_upper_alnum (c : code_unit) :
  is_upper_alnum c = true -> convertToWord [c] = Some (phonetic_word c).
Proof.
  unfold is_upper_alnum. intros H. apply orb_true_iff in H.
  destruct H as [H|H].
  - assert (Hk : (c - 48 < 10)%N) by (unfold is_digit in H; lia).
    replace c with (48 + (c - 48))%N at 1 by (unfold is_digit in H; lia).
    rewrite (convertToWord_digit _ Hk). unfold phonetic_word. rewrite H.
    apply nth_error_nth'. simpl. lia.
  - assert (Hd : is_digit c = false) by (unfold is_digit; lia).
    assert (Hk : (c - 65 < 26)%N) by lia.
    replace c with (65 + (c - 65))%N at 1 by lia.
    destruct (convertToWord_letter _ Hk) as [_ ->].
    unfold phonetic_word. rewrite Hd. apply nth_error_nth'. simpl. lia.
Qed.

(** The rounds of the loop from position [size pre] on, over digits and
    capital letters. *)
Lemma getPhonetic_rounds_upper_alnum (suf pre acc : jsstring) :
  Forall (fun c => is_upper_alnum c = true) suf ->
  fold_left (getPhonetic_body (pre ++ suf))
            (counter (size pre) (length suf)) acc
  = acc ++ join_words (map phonetic_word suf).
Proof.
  revert pre acc. induction suf as [|c suf IH]; intros pre acc Hall.
  - simpl. symmetry. apply app_nil_r.
  - inversion Hall as [|? ? Hc Hsuf]; subst.
    destruct (is_upper_alnum_ascii c Hc) as (Ha & Hu & Hp).
    unfold size at 1. simpl length. rewrite counter_S. cbn [fold_left].
    replace (pre ++ c :: suf) with ((pre ++ [c]) ++ suf) at 1
      by (rewrite <- app_assoc; reflexivity).
    replace (Z.of_nat (S (length pre))) with (size (pre ++ [c]))
      by (unfold size; rewrite length_app; simpl; lia).
    rewrite IH by exact Hsuf.
    change (Z.of_nat (length pre)) with (size pre).
    unfold getPhonetic_body.
    rewrite not_plus_true by exact Hp.
    rewrite is_last_round, substr_round.
    rewrite toUpperCase_ascii.
    2:{ constructor; [exact Ha|]. apply Forall_forall. intros x Hx.
        apply In_firstn in Hx. rewrite Forall_forall in Hsuf.
        apply is_upper_alnum_ascii. auto. }
    simpl map. rewrite convertToWord_cons, Hu.
    rewrite convertToWord_upper_alnum by exact Hc. simpl ToString.
    destruct suf as [|d suf]; cbn [map join_words negb].
    + rewrite !app_nil_r. reflexivity.
    + rewrite <- !app_assoc. reflexivity.
Qed.

Lemma getPhonetic_spec_upper_alnum (location : jsstring) :
  Forall (fun c => is_upper_alnum c = true) location ->
  getPhonetic location = join_words (map phonetic_word location).
Proof.
  intros H. unfold getPhonetic.
  apply (getPhonetic_rounds_upper_alnum location [] [] H).
Qed.


Lemma tables_not_none (w : jsstring) :
  In w (numbers ++ letters) -> w <> str "NONE".
Proof.
  assert (H : forallb (fun w => negb (strict_eq w (str "NONE")))
                      (numbers ++ letters) = true) by reflexivity.
  rewrite forallb_forall in H. intros Hin. specialize (H w Hin).
  apply strict_eq_false. apply negb_true_iff. exact H.
Qed.

(** What [convertToWord] returns, when it is not [undefined], is a
    word of one of the tables. *)
Lemma convertToWord_in_tables (character w : jsstring) :
  convertToWord character = Some w -> In w (numbers ++ letters).
Proof.
  unfold convertToWord. intros H. apply in_or_app.
  destruct (negb (isNaN (substr character 0 1))).
  - left. unfold array_get_key in H.
    destruct (substr character 0 1) as [|c [|? ?]]; try discriminate.
    destruct (is_digit c); [|discriminate].
    apply nth_error_In in H. exact H.
  - right. unfold array_get in H.
    destruct (num_add _ _) as [|z]; [discriminate|].
    destruct (z <? 0); [discriminate|].
    apply nth_error_In in H. exact H.
Qed.

Lemma getPhonetic_body_keeps_space (location result : jsstring) (i : Z) :
  In 32%N result -> In 32%N (getPhonetic_body location result i).
Proof.
  intros H. unfold getPhonetic_body.
  destruct (not_plus location i), (negb (i =? size location - 1));
    repeat (apply in_or_app; left); exact H.
Qed.

(** [getPhonetic] returns "NONE" on no string at all. *)
Lemma getPhonetic_never_none (location : jsstring) :
  getPhonetic location <> str "NONE".
Proof.
  unfold getPhonetic. destruct location as [|c [|d rest]].
  - discriminate.
  - cbn [length counter seq map fold_left Z.to_nat Z.of_nat].
    unfold getPhonetic_body. change (0 =? size [c] - 1) with true.
    cbv beta iota delta [negb]. destruct (not_plus [c] 0); [|discriminate].
    destruct (convertToWord _) as [w|] eqn:E; [|discriminate].
    simpl. apply tables_not_none. apply (convertToWord_in_tables _ _ E).
  - change (length (c :: d :: rest)) with (S (S (length rest))).
    change 0 with (Z.of_nat 0). rewrite counter_S. cbn [fold_left].
    intros Heq.
    assert (Hin : In 32%N (str "NONE")).
    { rewrite <- Heq.
      generalize (counter (Z.of_nat 1) (S (length rest))).
      assert (H0 : In 32%N (getPhonetic_body (c :: d :: rest) [] (Z.of_nat 0))).
      { unfold getPhonetic_body.
        replace (Z.of_nat 0 =? size (c :: d :: rest) - 1) with false.
        - apply in_or_app. right. left. reflexivity.
        - symmetry. apply Z.eqb_neq. rewrite !size_cons.
          pose proof (size_nonneg rest). simpl. lia. }
      revert H0. generalize (getPhonetic_body (c :: d :: rest) [] (Z.of_nat 0)).
      intros acc Hacc rounds. revert acc Hacc.
      induction rounds as [|i rounds IH]; intros acc Hacc; simpl.
      - exact Hacc.
      - apply IH. apply getPhonetic_body_keeps_space. exact Hacc. }
    simpl in Hin. intuition discriminate.
Qed.

(** C4: on a string of digits and capital letters, [getPhonetic] is the
    words of the characters, each a digit's word of the number table or
    the letter's word of the letter table at [charCode - 'A'], in the
    order of the input and with one space between them; each letter A-Z
    alone gives its word, each digit 0-9 alone its number name; "AB"
    gives "ALPHA BRAVO" and the empty string the empty string; and on no
    string at all does [getPhonetic] return "NONE". *)
Theorem getPhonetic_upper_alnum :
  (forall location,
     Forall (fun c => is_upper_alnum c = true) location ->
     getPhonetic location = join_words (map phonetic_word location))
  /\ (forall k, (k < 26)%nat ->
        Some (getPhonetic [N.of_nat (65 + k)]) = nth_error letters k)
  /\ (forall k, (k < 10)%nat ->
        Some (getPhonetic [N.of_nat (48 + k)]) = nth_error numbers k)
  /\ getPhonetic (str "AB") = str "ALPHA BRAVO"
  /\ getPhonetic (str "") = str ""
  /\ (forall location, getPhonetic location <> str "NONE").
Proof.
  split; [|split; [|split; [|split; [|split]]]].
  - intros location Hall. apply getPhonetic_spec_upper_alnum, Hall.
  - intros k Hk. rewrite getPhonetic_spec_upper_alnum.
    + do 26 (destruct k as [|k]; [reflexivity|]). lia.
    + constructor; [|constructor]. unfold is_upper_alnum, is_digit. lia.
  - intros k Hk. rewrite getPhonetic_spec_upper_alnum.
    + do 10 (destruct k as [|k]; [reflexivity|]). lia.
    + constructor; [|constructor]. unfold is_upper_alnum, is_digit. lia.
  - rewrite getPhonetic_spec_upper_alnum; [reflexivity|].
    repeat constructor.
  - reflexivity.
  - apply getPhonetic_never_none.
Qed.

Lemma getPhonetic_once_body_eq (location result : jsstring) (i : Z) :
  getPhonetic_body location result i = getPhonetic_once_body location result i.
Proof.
  unfold getPhonetic_body, getPhonetic_once_body, not_plus.
  rewrite andb_diag. reflexivity.
Qed.

(** C9, amended: the test in the loop of [getPhonetic] never keeps a
    '-' out: in the round of a '-' the test holds and [convertToWord] is
    called on the substring; the test keeps a '+' out exactly when the
    compared substring is "+" alone, which is so at position 0 and at the
    last position of the string (there the substring has one character
    only) and nowhere else; and the second comparison is redundant:
    without it [getPhonetic] returns the same string on every input. *)
Theorem getPhonetic_plus_test (location : jsstring) :
  (forall i, 0 <= i < size location ->
     charCodeAt location i = Num 45 ->
     not_plus location i = true
     /\ forall result,
          getPhonetic_body location result i
          = (result ++ ToString (convertToWord
                                   (toUpperCase (substr location i (i + 1)))))
            ++ (if i =? size location - 1 then [] else str " "))
  /\ (forall i, 0 <= i < size location ->
        (not_plus location i = false
         <-> charCodeAt location i = Num 43
             /\ (i = 0 \/ i = size location - 1)))
  /\ getPhonetic location = getPhonetic_once location.
Proof.
  split; [|split].
  - intros i Hi H45.
    destruct (split_at location i Hi) as (pre & c & suf & -> & <- & Hc).
    rewrite Hc in H45. injection H45 as H45.
    assert (Hnp : not_plus (pre ++ c :: suf) (size pre) = true)
      by (apply not_plus_true; lia).
    split; [exact Hnp|]. intros result.
    unfold getPhonetic_body. rewrite Hnp.
    destruct (size pre =? size (pre ++ c :: suf) - 1); simpl.
    + symmetry. apply app_nil_r.
    + reflexivity.
  - intros i Hi.
    destruct (split_at location i Hi) as (pre & c & suf & -> & <- & Hc).
    rewrite not_plus_false, Hc.
    pose proof (is_last_round pre c suf) as Hlast.
    assert (Hpre : pre = [] <-> size pre = 0)
      by (destruct pre; [tauto | rewrite size_cons;
          pose proof (size_nonneg pre); split; [discriminate | lia]]).
    assert (Hsuf : suf = [] <-> size pre = size (pre ++ c :: suf) - 1).
    { destruct suf.
      - apply Z.eqb_eq in Hlast. tauto.
      - apply Z.eqb_neq in Hlast. split; [discriminate | tauto]. }
    rewrite Hpre, Hsuf. split.
    + intros [-> H]. split; [reflexivity | exact H].
    + intros [H43 H]. injection H43 as H43. split; [lia | exact H].
  - unfold getPhonetic, getPhonetic_once.
    generalize (counter 0 (length location)) as rounds.
    generalize (@nil N) as result.
    intros result rounds. revert result.
    induction rounds as [|i rounds IH]; intros result; simpl.
    + reflexivity.
    + rewrite getPhonetic_once_body_eq. apply IH.
Qed.


(** ** The special locations *)

Lemma Some_eq {A : Type} (a b : A) : Some a = Some b -> a = b.
Proof. intros H. injection H as H. exact H. Qed.

Lemma relative_suffix_last (pre : jsstring) (c : code_unit) :
  relative_suffix (pre ++ [c]) = ((c =? 43) || (c =? 45))%N.
Proof.
  unfold relative_suffix. rewrite substr_from_last.
  simpl. rewrite !andb_true_r. reflexivity.
Qed.

(** When the first rule does not apply, the call nests no other: it
    gives with any fuel what it gives with fuel for one call, and that
    is a result. *)
Lemma handleSpecialLocation_fuel_flat (location : jsstring) (pg : page) :
  relative_suffix location = false ->
  (forall fuel, handleSpecialLocation_fuel (S fuel) location pg
                = handleSpecialLocation_fuel 1 location pg)
  /\ handleSpecialLocation_fuel 1 location pg <> None.
Proof.
  unfold relative_suffix. intros H. split.
  - intros fuel. cbn [handleSpecialLocation_fuel]. rewrite H. reflexivity.
  - cbn [handleSpecialLocation_fuel]. rewrite H.
    repeat match goal with
           | |- context [if ?b then _ else _] => destruct b
           end; discriminate.
Qed.

(** When the first rule applies, the call nests one call, on the string
    without its last character. *)
Lemma handleSpecialLocation_fuel_suffix (fuel : nat) (pre : jsstring)
    (c : code_unit) (pg : page) :
  c = 43%N \/ c = 45%N ->
  handleSpecialLocation_fuel (S fuel) (pre ++ [c]) pg
  = match handleSpecialLocation_fuel fuel pre pg with
    | None => None
    | Some (special, pg') =>
      Some (true,
            set_check (getCheck (pre ++ [c]))
              (set_phonetic
                 (Some ((if (c =? 43)%N then str "AFTER " else str "BEFORE ")
                        ++ (if special then phoneticDiv pg'
                            else getPhonetic pre)))
                 pg'))
    end.
Proof.
  intros Hc. cbn [handleSpecialLocation_fuel].
  rewrite substr_from_last, substr_init.
  destruct Hc as [-> | ->]; cbn [strict_eq str map list_ascii_of_string
    N_of_ascii N.eqb Pos.eqb orb andb ToString N_of_digits N.add N.mul
    Pos.add Pos.mul Pos.succ];
    destruct (handleSpecialLocation_fuel fuel pre pg) as [[[|] pg']|];
    reflexivity.
Qed.

(** Fuel above the length of the string is enough, and the result does
    not depend on how much more there is. *)
Lemma handleSpecialLocation_fuel_enough (location : jsstring) :
  forall (pg : page) (fuel : nat),
    (length location < fuel)%nat ->
    handleSpecialLocation_fuel fuel location pg
    = Some (handleSpecialLocation location pg).
Proof.
  assert (Hflat : forall location pg fuel,
            relative_suffix location = false ->
            (length location < fuel)%nat ->
            handleSpecialLocation_fuel fuel location pg
            = Some (handleSpecialLocation location pg)).
  { intros l pg fuel Hrs Hf.
    destruct (handleSpecialLocation_fuel_flat l pg Hrs) as [Hany Hsome].
    unfold handleSpecialLocation. destruct fuel as [|fuel]; [lia|].
    rewrite (Hany fuel), (Hany (length l)).
    destruct (handleSpecialLocation_fuel 1 l pg); [reflexivity | tauto]. }
  induction location as [|c pre IH] using rev_ind; intros pg fuel Hf.
  - apply Hflat; [reflexivity | exact Hf].
  - destruct (relative_suffix (pre ++ [c])) eqn:Hrs.
    + rewrite relative_suffix_last in Hrs.
      assert (Hc : c = 43%N \/ c = 45%N) by lia.
      rewrite length_app in Hf. simpl in Hf.
      destruct fuel as [|fuel]; [lia|].
      unfold handleSpecialLocation.
      rewrite !handleSpecialLocation_fuel_suffix by exact Hc.
      rewrite !IH by (rewrite ?length_app; simpl; lia).
      destruct (handleSpecialLocation pre pg) as [special pg'].
      reflexivity.
    + apply Hflat; [exact Hrs | exact Hf].
Qed.

(** The first rule, on the call as the program makes it. *)
Lemma handleSpecialLocation_suffix (pre : jsstring) (c : code_unit)
    (pg : page) :
  c = 43%N \/ c = 45%N ->
  handleSpecialLocation (pre ++ [c]) pg
  = (true,
     set_check (getCheck (pre ++ [c]))
       (set_phonetic
          (Some ((if (c =? 43)%N then str "AFTER " else str "BEFORE ")
                 ++ (if fst (handleSpecialLocation pre pg)
                     then phoneticDiv (snd (handleSpecialLocation pre pg))
                     else getPhonetic pre)))
          (snd (handleSpecialLocation pre pg)))).
Proof.
  intros Hc.
  assert (H : Some (handleSpecialLocation (pre ++ [c]) pg) = Some
    (true,
     set_check (getCheck (pre ++ [c]))
       (set_phonetic
          (Some ((if (c =? 43)%N then str "AFTER " else str "BEFORE ")
                 ++ (if fst (handleSpecialLocation pre pg)
                     then phoneticDiv (snd (handleSpecialLocation pre pg))
                     else getPhonetic pre)))
          (snd (handleSpecialLocation pre pg))))).
  { rewrite <- (handleSpecialLocation_fuel_enough (pre ++ [c]) pg
                  (S (length (pre ++ [c])))) by lia.
    rewrite handleSpecialLocation_fuel_suffix by exact Hc.
    rewrite handleSpecialLocation_fuel_enough
      by (rewrite length_app; simpl; lia).
    destruct (handleSpecialLocation pre pg) as [special pg']. reflexivity. }
  exact (Some_eq _ _ H).
Qed.

(** The later rules, on the call as the program makes it. *)
Lemma handleSpecialLocation_flat (location : jsstring) (pg : page) :
  relative_suffix location = false ->
  Some (handleSpecialLocation location pg)
  = handleSpecialLocation_fuel 1 location pg.
Proof.
  intros Hrs.
  rewrite <- (handleSpecialLocation_fuel_enough location pg
                (S (length location))) by lia.
  apply (handleSpecialLocation_fuel_flat location pg Hrs).
Qed.

Lemma substr_0_2_cons (a b : code_unit) (s : jsstring) :
  substr (a :: b :: s) 0 2 = [a; b].
Proof. rewrite substr_pos by lia. reflexivity. Qed.

Lemma substr_2_4_cons (a b : code_unit) (s : jsstring) :
  substr (a :: b :: s) 2 4 = firstn 4 s.
Proof. rewrite substr_pos by lia. reflexivity. Qed.

Lemma substr_0_2_single (a : code_unit) (s : jsstring) :
  substr (a :: s) 0 2 = a :: firstn 1 s.
Proof. rewrite substr_pos by lia. reflexivity. Qed.

(** C2: for every code whose last character is '+' or '-' the first
    rule applies: the phonetic is "AFTER " (for '+') or "BEFORE " (for
    '-') followed by what the call on the code without its last character
    wrote when that call found a special location, and by the plain
    phonetic of that shorter code otherwise; the check is [getCheck] of
    the whole code, suffix included.  "S1A+" gives "AFTER SECURITY ONE
    ALPHA" with the check of "S1A+". *)
Theorem relative_suffix_rule :
  (forall (pre : jsstring) (c : code_unit) (pg : page),
     c = 43%N \/ c = 45%N ->
     exists check,
       getCheck (pre ++ [c]) = Some check
       /\ handleSpecialLocation (pre ++ [c]) pg
          = (true,
             mkPage
               ((if (c =? 43)%N then str "AFTER " else str "BEFORE ")
                ++ (if fst (handleSpecialLocation pre pg)
                    then phoneticDiv (snd (handleSpecialLocation pre pg))
                    else getPhonetic pre))
               check))
  /\ (forall pg : page,
        handleSpecialLocation (str "S1A") pg
        = (true, mkPage (str "SECURITY ONE ALPHA") (str "NONE"))
        /\ exists check,
             getCheck (str "S1A+") = Some check
             /\ handleSpecialLocation (str "S1A+") pg
                = (true, mkPage (str "AFTER SECURITY ONE ALPHA") check)).
Proof.
  assert (Hrule : forall (pre : jsstring) (c : code_unit) (pg : page),
     c = 43%N \/ c = 45%N ->
     exists check,
       getCheck (pre ++ [c]) = Some check
       /\ handleSpecialLocation (pre ++ [c]) pg
          = (true,
             mkPage
               ((if (c =? 43)%N then str "AFTER " else str "BEFORE ")
                ++ (if fst (handleSpecialLocation pre pg)
                    then phoneticDiv (snd (handleSpecialLocation pre pg))
                    else getPhonetic pre))
               check)).
  { intros pre c pg Hc.
    destruct (getCheck_defined (pre ++ [c])) as [check Hcheck].
    exists check. split; [exact Hcheck|].
    rewrite handleSpecialLocation_suffix by exact Hc.
    rewrite Hcheck. reflexivity. }
  split; [exact Hrule|]. intros pg.
  assert (Hs : handleSpecialLocation (str "S1A") pg
               = (true, mkPage (str "SECURITY ONE ALPHA") (str "NONE"))).
  { assert (H : Some (handleSpecialLocation (str "S1A") pg)
                = Some (true, mkPage (str "SECURITY ONE ALPHA") (str "NONE"))).
    { rewrite handleSpecialLocation_flat by reflexivity.
      cbn [handleSpecialLocation_fuel]. decide_rules.
      change (substr (str "S1A") 1 4) with (str "1A").
      rewrite getPhonetic_spec_upper_alnum by (repeat constructor).
      reflexivity. }
    exact (Some_eq _ _ H). }
  split; [exact Hs|].
  destruct (Hrule (str "S1A") 43%N pg (or_introl eq_refl))
    as (check & Hcheck & Hcall).
  exists check. split; [exact Hcheck|].
  change (str "S1A+") with (str "S1A" ++ [43%N]).
  rewrite Hcall, Hs. reflexivity.
Qed.

(** C5: "SOB" gives the phonetic "SOB" and the check "SIERRA", "DPA"
    gives "DPA" and "VICTOR"; the checks are the literals of the rules
    and not what [getCheck] gives on these codes; the rules come before
    the rules of the first letters, so "SOB" does not get the phonetic
    the rule of the security locations would give it. *)
Theorem fixed_codes (pg : page) :
  handleSpecialLocation (str "SOB") pg
  = (true, mkPage (str "SOB") (str "SIERRA"))
  /\ handleSpecialLocation (str "DPA") pg
     = (true, mkPage (str "DPA") (str "VICTOR"))
  /\ getCheck (str "SOB") = Some (str "NONE")
  /\ getCheck (str "DPA") = Some (str "NONE")
  /\ strict_eq (substr (str "SOB") 0 1) (str "S") = true
  /\ phoneticDiv (snd (handleSpecialLocation (str "SOB") pg))
     <> trim (str "SECURITY " ++ getPhonetic (substr (str "SOB") 1 4)).
Proof.
  repeat split.
  change (substr (str "SOB") 1 4) with (str "OB").
  rewrite getPhonetic_spec_upper_alnum by (repeat constructor).
  discriminate.
Qed.

(** C7: for every code that begins with "CA" and does not end in '+'
    or '-' (the one earlier rule such a code can match), the phonetic is
    "CASH OFFICE " followed by the phonetic of [substr(2, 4)], trimmed,
    and the check is [getCheck] of the whole code; [substr(2, 4)] is all
    the characters after the first two for a code of up to six
    characters, and a location code has four at most.  "CA12" gives "CASH
    OFFICE ONE TWO" with the check of "CA12". *)
Theorem cash_office_rule :
  (forall (rest : jsstring) (pg : page),
     relative_suffix (str "CA" ++ rest) = false ->
     (exists check,
        getCheck (str "CA" ++ rest) = Some check
        /\ handleSpecialLocation (str "CA" ++ rest) pg
           = (true,
              mkPage (trim (str "CASH OFFICE "
                            ++ getPhonetic (substr (str "CA" ++ rest) 2 4)))
                     check))
     /\ ((length rest <= 4)%nat -> substr (str "CA" ++ rest) 2 4 = rest))
  /\ (forall pg : page,
        exists check,
          getCheck (str "CA12") = Some check
          /\ handleSpecialLocation (str "CA12") pg
             = (true, mkPage (str "CASH OFFICE ONE TWO") check)).
Proof.
  assert (Hrule : forall (rest : jsstring) (pg : page),
     relative_suffix (str "CA" ++ rest) = false ->
     (exists check,
        getCheck (str "CA" ++ rest) = Some check
        /\ handleSpecialLocation (str "CA" ++ rest) pg
           = (true,
              mkPage (trim (str "CASH OFFICE "
                            ++ getPhonetic (substr (str "CA" ++ rest) 2 4)))
                     check))
     /\ ((length rest <= 4)%nat -> substr (str "CA" ++ rest) 2 4 = rest)).
  { intros rest pg Hrs. split.
    - destruct (getCheck_defined (str "CA" ++ rest)) as [check Hcheck].
      exists check. split; [exact Hcheck|].
      assert (H : Some (handleSpecialLocation (str "CA" ++ rest) pg) = Some
        (true,
         mkPage (trim (str "CASH OFFICE "
                       ++ getPhonetic (substr (str "CA" ++ rest) 2 4)))
                check)).
      { rewrite handleSpecialLocation_flat by exact Hrs.
        cbn [handleSpecialLocation_fuel].
        unfold relative_suffix in Hrs. rewrite Hrs, Hcheck.
        change (str "CA" ++ rest) with (67%N :: 65%N :: rest).
        rewrite substr_0_2_cons. reflexivity. }
      exact (Some_eq _ _ H).
    - intros Hlen. change (str "CA" ++ rest) with (67%N :: 65%N :: rest).
      rewrite substr_2_4_cons. apply firstn_all2. exact Hlen. }
  split; [exact Hrule|]. intros pg.
  destruct (Hrule (str "12") pg eq_refl) as [(check & Hcheck & Hcall) _].
  exists check. split; [exact Hcheck|].
  change (str "CA12") with (str "CA" ++ str "12"). rewrite Hcall.
  change (substr (str "CA" ++ str "12") 2 4) with (str "12").
  rewrite getPhonetic_spec_upper_alnum by (repeat constructor).
  reflexivity.
Qed.

(** C8: for every code that begins with "L" and does not end in '+' or
    '-' (the one earlier rule such a code can match), the phonetic is the
    phonetic of [substr(1, 2)], then " LINBIN ", then the phonetic of
    [substr(3, 4)], trimmed, and the check is [getCheck] of the whole
    code; on a code of four characters [substr(1, 2)] is the two
    characters at the indices 1 and 2 and [substr(3, 4)] the one
    character at index 3. *)
Theorem linbin_rule :
  (forall (rest : jsstring) (pg : page),
     relative_suffix (str "L" ++ rest) = false ->
     exists check,
       getCheck (str "L" ++ rest) = Some check
       /\ handleSpecialLocation (str "L" ++ rest) pg
          = (true,
             mkPage (trim (getPhonetic (substr (str "L" ++ rest) 1 2)
                           ++ str " LINBIN "
                           ++ getPhonetic (substr (str "L" ++ rest) 3 4)))
                    check))
  /\ (forall a b c : code_unit,
        substr (str "L" ++ [a; b; c]) 1 2 = [a; b]
        /\ substr (str "L" ++ [a; b; c]) 3 4 = [c])
  /\ (forall pg : page,
        exists check,
          getCheck (str "L12A") = Some check
          /\ handleSpecialLocation (str "L12A") pg
             = (true, mkPage (str "ONE TWO LINBIN ALPHA") check)).
Proof.
  assert (Hrule : forall (rest : jsstring) (pg : page),
     relative_suffix (str "L" ++ rest) = false ->
     exists check,
       getCheck (str "L" ++ rest) = Some check
       /\ handleSpecialLocation (str "L" ++ rest) pg
          = (true,
             mkPage (trim (getPhonetic (substr (str "L" ++ rest) 1 2)
                           ++ str " LINBIN "
                           ++ getPhonetic (substr (str "L" ++ rest) 3 4)))
                    check)).
  { intros rest pg Hrs.
    destruct (getCheck_defined (str "L" ++ rest)) as [check Hcheck].
    exists check. split; [exact Hcheck|].
    assert (H : Some (handleSpecialLocation (str "L" ++ rest) pg) = Some
      (true,
       mkPage (trim (getPhonetic (substr (str "L" ++ rest) 1 2)
                     ++ str " LINBIN "
                     ++ getPhonetic (substr (str "L" ++ rest) 3 4)))
              check)).
    { rewrite handleSpecialLocation_flat by exact Hrs.
      cbn [handleSpecialLocation_fuel].
      unfold relative_suffix in Hrs. rewrite Hrs, Hcheck.
      change (str "L" ++ rest) with (76%N :: rest).
      rewrite substr_0_2_single, substr_0_1_cons. reflexivity. }
    exact (Some_eq _ _ H). }
  split; [exact Hrule|]. split.
  - intros a b c. split; reflexivity.
  - intros pg.
    destruct (Hrule (str "12A") pg eq_refl) as (check & Hcheck & Hcall).
    exists check. split; [exact Hcheck|].
    change (str "L12A") with (str "L" ++ str "12A"). rewrite Hcall.
    change (substr (str "L" ++ str "12A") 1 2) with (str "12").
    change (substr (str "L" ++ str "12A") 3 4) with (str "A").
    rewrite !getPhonetic_spec_upper_alnum by (repeat constructor).
    reflexivity.
Qed.

(** C10: [handleSpecialLocation] has a result on every string: fuel for
    one call more than the string has characters is enough, so a call
    nests at most as many calls as the string is long; the first rule is
    the only one that calls again, it does so on the string without its
    last character, which is shorter, and it does not apply to the empty
    string. *)
Theorem handleSpecialLocation_terminates (location : jsstring) (pg : page) :
  (forall fuel, (length location < fuel)%nat ->
     handleSpecialLocation_fuel fuel location pg
     = Some (handleSpecialLocation location pg))
  /\ (relative_suffix location = true ->
      (length (substr location 0 (size location - 1)) < length location)%nat
      /\ forall fuel,
           handleSpecialLocation_fuel (S fuel) location pg = None
           <-> handleSpecialLocation_fuel fuel
                 (substr location 0 (size location - 1)) pg = None)
  /\ (relative_suffix location = false ->
      forall fuel,
        handleSpecialLocation_fuel (S fuel) location pg
        = handleSpecialLocation_fuel 1 location pg)
  /\ relative_suffix [] = false.
Proof.
  split; [|split; [|split]].
  - apply handleSpecialLocation_fuel_enough.
  - intros Hrs. destruct (last_char_cases location) as [-> | (pre & c & ->)].
    + discriminate.
    + rewrite relative_suffix_last in Hrs.
      assert (Hc : c = 43%N \/ c = 45%N) by lia.
      rewrite substr_init. split.
      * rewrite length_app. simpl. lia.
      * intros fuel. rewrite handleSpecialLocation_fuel_suffix by exact Hc.
        destruct (handleSpecialLocation_fuel fuel pre pg) as [[special pg']|].
        -- split; discriminate.
        -- tauto.
  - intros Hrs. apply (handleSpecialLocation_fuel_flat location pg Hrs).
  - reflexivity.
Qed.


(** ** The rest of the program: [convertToWord] on any ASCII character *)

Lemma convertToWord_nil : convertToWord [] = None.
Proof. reflexivity. Qed.

Lemma convertToWord_ascii_char (c : code_unit) :
  is_ascii c ->
  convertToWord [c]
  = if is_alnum c then Some (phonetic_word (upper_ascii c)) else None.
Proof.
  revert c. unfold is_ascii. apply (N_below _ 128). intros i Hi.
  unfold convertToWord. rewrite substr_0_1_cons.
  rewrite toUpperCase_single by (unfold is_ascii; lia).
  do 128 (destruct i as [|i]; [reflexivity|]). lia.
Qed.

(** X1: [convertToWord] has a word exactly for the ASCII digits and
    letters, a small letter having the word of its capital; for every
    other ASCII character, and for the empty string, it returns
    [undefined]; only the first character of its argument counts. *)
Theorem convertToWord_ascii (c : code_unit) (s : jsstring) :
  is_ascii c ->
  convertToWord (c :: s)
  = (if is_alnum c then Some (phonetic_word (upper_ascii c)) else None)
  /\ convertToWord [] = None.
Proof.
  intros Hc. split; [|reflexivity]. rewrite convertToWord_cons.
  apply convertToWord_ascii_char. exact Hc.
Qed.

(** ** The rest of the program: the check character as a check *)

(** The place in the letter table of the check of four characters. *)
Lemma getCheck_index (location : jsstring) :
  length location = 4%nat ->
  getCheck location
  = nth_error letters (N.to_nat (spec_weighted_sum location mod 26)).
Proof.
  intros Hl. destruct (length_4 _ Hl) as (a & b & c & d & ->).
  rewrite getCheck_4. unfold spec_check_letter.
  rewrite N.add_comm. apply convertToWord_letter.
  apply N.mod_lt. discriminate.
Qed.

(** Two codes of four characters have the same check exactly when their
    weighted sums agree modulo 26. *)
Lemma getCheck_eq_iff (l l' : jsstring) :
  length l = 4%nat -> length l' = 4%nat ->
  getCheck l = getCheck l'
  <-> (spec_weighted_sum l mod 26 = spec_weighted_sum l' mod 26)%N.
Proof.
  intros Hl Hl'. rewrite !getCheck_index by assumption. split.
  - intros H. apply N2Nat.inj.
    apply (proj1 (NoDup_nth_error letters) letters_NoDup); [|exact H].
    assert (spec_weighted_sum l mod 26 < 26)%N
      by (apply N.mod_lt; discriminate).
    simpl. lia.
  - intros ->. reflexivity.
Qed.

(** X2: a code of four characters and the code with one character
    replaced have the same check exactly when the two character codes
    differ by a multiple of 26, at each of the four positions: the check
    tells any two capital letters apart, and any two digits, but not '0'
    from 'J'. *)
Theorem getCheck_one_character (a b c d x : code_unit) :
  (getCheck [x; b; c; d] = getCheck [a; b; c; d]
   <-> (x mod 26 = a mod 26)%N)
  /\ (getCheck [a; x; c; d] = getCheck [a; b; c; d]
      <-> (x mod 26 = b mod 26)%N)
  /\ (getCheck [a; b; x; d] = getCheck [a; b; c; d]
      <-> (x mod 26 = c mod 26)%N)
  /\ (getCheck [a; b; c; x] = getCheck [a; b; c; d]
      <-> (x mod 26 = d mod 26)%N).
Proof.
  repeat split; intros H.
  all: try (apply getCheck_eq_iff in H; [|reflexivity|reflexivity]).
  all: try (apply getCheck_eq_iff; [reflexivity|reflexivity|]).
  all: rewrite !spec_weighted_sum_4 in *; zify;
    Z.to_euclidean_division_equations; lia.
Qed.

(** X3: the characters at the indices 1 and 2 have the same weight, so
    exchanging them never changes the check. *)
Theorem getCheck_middle_exchange (a b c d : code_unit) :
  getCheck [a; c; b; d] = getCheck [a; b; c; d].
Proof.
  apply getCheck_eq_iff; [reflexivity|reflexivity|].
  rewrite !spec_weighted_sum_4. f_equal. lia.
Qed.

(** ** The rest of the program: [getPhonetic] on any ASCII string *)

Lemma upper_ascii_facts (c : code_unit) :
  is_ascii c ->
  is_ascii (upper_ascii c)
  /\ upper_ascii (upper_ascii c) = upper_ascii c
  /\ ((upper_ascii c =? 43) = (c =? 43))%N.
Proof.
  unfold is_ascii, upper_ascii. intros H.
  destruct ((97 <=? c) && (c <=? 122))%N eqn:E.
  - assert (E' : ((97 <=? c - 32) && (c - 32 <=? 122))%N = false) by lia.
    rewrite E'. lia.
  - rewrite E. lia.
Qed.

(** One round of the loop on an ASCII string. *)
Lemma getPhonetic_body_ascii (pre : jsstring) (c : code_unit)
    (suf acc : jsstring) :
  Forall is_ascii (c :: suf) ->
  getPhonetic_body (pre ++ c :: suf) acc (size pre)
  = (acc ++ round_word (is_empty pre) (is_empty suf) c)
    ++ (if is_empty suf then [] else str " ").
Proof.
  intros Hall. inversion Hall as [|? ? Hc Hsuf]; subst.
  unfold getPhonetic_body. rewrite is_last_round, substr_round.
  assert (Hsep : forall r : jsstring,
            (if negb match suf with [] => true | _ :: _ => false end
             then r ++ str " " else r)
            = r ++ (if is_empty suf then [] else str " ")).
  { intros r. destruct suf; simpl; [symmetry; apply app_nil_r | reflexivity]. }
  rewrite Hsep. f_equal.
  destruct (not_plus (pre ++ c :: suf) (size pre)) eqn:E.
  - rewrite toUpperCase_ascii.
    2:{ constructor; [exact Hc|]. apply Forall_forall. intros x Hx.
        apply In_firstn in Hx. rewrite Forall_forall in Hsuf. auto. }
    simpl map. rewrite convertToWord_cons. unfold round_word.
    replace ((c =? 43)%N && (is_empty pre || is_empty suf)) with false;
      [reflexivity|].
    symmetry. apply not_true_iff_false. intros Ht.
    apply andb_true_iff in Ht. destruct Ht as [H43 Hor].
    assert (Hf : not_plus (pre ++ c :: suf) (size pre) = false).
    { apply not_plus_false. split; [apply N.eqb_eq; exact H43|].
      apply orb_true_iff in Hor. destruct Hor as [Hp | Hs].
      - left. destruct pre; [reflexivity | discriminate].
      - right. destruct suf; [reflexivity | discriminate]. }
    congruence.
  - apply not_plus_false in E. destruct E as [-> Hor]. unfold round_word.
    replace (is_empty pre || is_empty suf) with true;
      [simpl; symmetry; apply app_nil_r|].
    destruct Hor as [-> | ->]; [reflexivity|]. symmetry. apply orb_true_r.
Qed.

Lemma getPhonetic_rounds_ascii (suf pre acc : jsstring) :
  Forall is_ascii suf ->
  fold_left (getPhonetic_body (pre ++ suf))
            (counter (size pre) (length suf)) acc
  = acc ++ phonetic_from (is_empty pre) suf.
Proof.
  revert pre acc. induction suf as [|c suf IH]; intros pre acc Hall.
  - simpl. symmetry. apply app_nil_r.
  - pose proof (getPhonetic_body_ascii pre c suf acc Hall) as Hbody.
    inversion Hall as [|? ? Hc Hsuf]; subst.
    unfold size at 1. simpl length. rewrite counter_S. cbn [fold_left].
    replace (pre ++ c :: suf) with ((pre ++ [c]) ++ suf) at 1
      by (rewrite <- app_assoc; reflexivity).
    replace (Z.of_nat (S (length pre))) with (size (pre ++ [c]))
      by (unfold size; rewrite length_app; simpl; lia).
    rewrite IH by exact Hsuf.
    change (Z.of_nat (length pre)) with (size pre). rewrite Hbody.
    replace (is_empty (pre ++ [c])) with false by (destruct pre; reflexivity).
    destruct suf as [|d suf]; cbn [phonetic_from is_empty].
    + rewrite !app_nil_r. reflexivity.
    + rewrite <- !app_assoc. reflexivity.
Qed.

Lemma getPhonetic_phonetic_from (s : jsstring) :
  Forall is_ascii s -> getPhonetic s = phonetic_from true s.
Proof.
  intros H. unfold getPhonetic.
  apply (getPhonetic_rounds_ascii s [] [] H).
Qed.

Lemma round_word_upper (first last : bool) (c : code_unit) :
  is_ascii c ->
  round_word first last (upper_ascii c) = round_word first last c.
Proof.
  intros Hc. destruct (upper_ascii_facts c Hc) as (_ & Hu & H43).
  unfold round_word. rewrite Hu, H43. reflexivity.
Qed.

Lemma phonetic_from_upper (s : jsstring) (first : bool) :
  Forall is_ascii s ->
  phonetic_from first (map upper_ascii s) = phonetic_from first s.
Proof.
  revert first. induction s as [|c s IH]; intros first Hall; [reflexivity|].
  inversion Hall as [|? ? Hc Hs]; subst.
  destruct s as [|d s].
  - simpl. apply round_word_upper. exact Hc.
  - change (map upper_ascii (c :: d :: s))
      with (upper_ascii c :: map upper_ascii (d :: s)).
    specialize (IH false Hs).
    change (map upper_ascii (d :: s))
      with (upper_ascii d :: map upper_ascii s) in *.
    cbn [phonetic_from] in *. rewrite IH, round_word_upper by exact Hc.
    reflexivity.
Qed.

Lemma Forall_ascii_upper (s : jsstring) :
  Forall is_ascii s -> Forall is_ascii (map upper_ascii s).
Proof.
  intros H. apply Forall_map. revert H. apply Forall_impl.
  intros c Hc. apply upper_ascii_facts. exact Hc.
Qed.

Lemma getPhonetic_toUpperCase (s : jsstring) :
  Forall is_ascii s -> getPhonetic (toUpperCase s) = getPhonetic s.
Proof.
  intros H. rewrite toUpperCase_ascii by exact H.
  rewrite !getPhonetic_phonetic_from by (try apply Forall_ascii_upper; exact H).
  apply phonetic_from_upper. exact H.
Qed.

(** X4: on an ASCII string [getPhonetic] goes character by character:
    a '+' that is the first or the last character adds nothing, every
    other character adds what [convertToWord] has for its capital (the
    text "undefined" where that is [undefined]), and after each character
    but the last comes one space. *)
Theorem getPhonetic_ascii (s : jsstring) :
  Forall is_ascii s -> getPhonetic s = phonetic_from true s.
Proof.
  intros H. unfold getPhonetic.
  apply (getPhonetic_rounds_ascii s [] [] H).
Qed.

(** X5: [getPhonetic] does not look at the case of ASCII letters: the
    upper-cased string has the phonetic of the string itself. *)
Theorem getPhonetic_ignores_case (s : jsstring) :
  Forall is_ascii s ->
  getPhonetic (toUpperCase s) = getPhonetic s
  /\ getPhonetic (map upper_ascii s) = getPhonetic s.
Proof.
  intros H. split; [apply getPhonetic_toUpperCase; exact H|].
  rewrite <- (toUpperCase_ascii s H). apply getPhonetic_toUpperCase. exact H.
Qed.

Lemma is_alnum_ascii (c : code_unit) :
  is_alnum c = true -> is_ascii c /\ c <> 43%N /\ c <> 45%N.
Proof. unfold is_alnum, is_digit, is_ascii. lia. Qed.

Lemma Forall_alnum_ascii (s : jsstring) :
  Forall (fun c => is_alnum c = true) s -> Forall is_ascii s.
Proof. apply Forall_impl. intros c Hc. apply is_alnum_ascii. exact Hc. Qed.

Lemma round_word_alnum (first last : bool) (c : code_unit) :
  is_alnum c = true ->
  round_word first last c = phonetic_word (upper_ascii c).
Proof.
  intros Hc. destruct (is_alnum_ascii c Hc) as (Ha & H43 & _).
  unfold round_word. replace (c =? 43)%N with false by lia. simpl.
  rewrite convertToWord_ascii_char.
  - destruct (upper_ascii_facts c Ha) as (Hua & Hu & _). rewrite Hu.
    replace (is_alnum (upper_ascii c)) with true; [reflexivity|].
    unfold upper_ascii, is_alnum, is_digit in *.
    destruct ((97 <=? c) && (c <=? 122))%N eqn:E; lia.
  - apply upper_ascii_facts. exact Ha.
Qed.

Lemma phonetic_from_snoc (pre : jsstring) (c : code_unit) (first : bool) :
  pre <> [] -> Forall (fun c => is_alnum c = true) pre ->
  phonetic_from first (pre ++ [c])
  = phonetic_from first pre ++ str " " ++ round_word false true c.
Proof.
  revert first. induction pre as [|x pre IH]; intros first Hne Hall;
    [congruence|].
  inversion Hall as [|? ? Hx Hpre]; subst.
  destruct pre as [|y pre].
  - simpl. rewrite !(round_word_alnum _ _ x Hx). reflexivity.
  - specialize (IH false ltac:(discriminate) Hpre).
    change ((x :: y :: pre) ++ [c]) with (x :: (y :: pre) ++ [c]).
    change ((y :: pre) ++ [c]) with (y :: pre ++ [c]) in *.
    cbn [phonetic_from] in *. rewrite IH. rewrite <- !app_assoc. reflexivity.
Qed.

(** X6: when a '+' or a '-' follows letters and digits and reaches
    [getPhonetic], the '+' leaves a space at the end of the phonetic and
    the '-' the text "undefined". *)
Theorem getPhonetic_trailing_sign (pre : jsstring) :
  pre <> [] -> Forall (fun c => is_alnum c = true) pre ->
  getPhonetic (pre ++ str "+") = getPhonetic pre ++ str " "
  /\ getPhonetic (pre ++ str "-") = getPhonetic pre ++ str " undefined".
Proof.
  intros Hne Hall. pose proof (Forall_alnum_ascii pre Hall) as Ha.
  assert (Hs : forall c, is_ascii c -> Forall is_ascii (pre ++ [c]))
    by (intros c Hc; apply Forall_app; split; [exact Ha | repeat constructor; exact Hc]).
  rewrite (getPhonetic_phonetic_from pre Ha).
  rewrite (getPhonetic_phonetic_from (pre ++ str "+"))
    by (apply (Hs 43%N); reflexivity).
  rewrite (getPhonetic_phonetic_from (pre ++ str "-"))
    by (apply (Hs 45%N); reflexivity).
  change (str "+") with [43%N]. change (str "-") with [45%N].
  rewrite !phonetic_from_snoc by assumption. split.
  - reflexivity.
  - unfold round_word. simpl.
    rewrite convertToWord_ascii_char by reflexivity.
    reflexivity.
Qed.

(** ** The rest of the program: what [handleSpecialLocation] does to the page *)

Lemma relative_suffix_no_sign (location : jsstring) :
  Forall (fun c => is_sign c = false) location ->
  relative_suffix location = false.
Proof.
  intros H. destruct (last_char_cases location) as [-> | (pre & c & ->)].
  - reflexivity.
  - rewrite relative_suffix_last. apply Forall_app in H. destruct H as [_ H].
    inversion H; subst. assumption.
Qed.

(** Without the first rule, a call writes a phonetic and a check that
    do not depend on the page, or leaves the page alone. *)
Lemma handleSpecialLocation_flat_page (location : jsstring) :
  relative_suffix location = false ->
  forall pg,
    handleSpecialLocation location pg
    = match classify location with
      | Some (phonetic, check) => (true, mkPage phonetic check)
      | None => (false, pg)
      end.
Proof.
  intros Hrs pg. unfold classify. apply Some_eq.
  destruct (getCheck_defined location) as [check Hcheck].
  pose proof (handleSpecialLocation_flat location blank_page Hrs) as Hb.
  rewrite (handleSpecialLocation_flat location pg Hrs).
  cbn [handleSpecialLocation_fuel] in *. unfold relative_suffix in Hrs.
  rewrite Hrs, Hcheck in *.
  repeat match goal with
         | H : context [if strict_eq ?a ?b then _ else _] |- _ =>
           destruct (strict_eq a b)
         end;
    apply Some_eq in Hb; rewrite Hb; reflexivity.
Qed.

Lemma handleSpecialLocation_classify (location : jsstring) (pg : page) :
  handleSpecialLocation location pg
  = match classify location with
    | Some (phonetic, check) => (true, mkPage phonetic check)
    | None => (false, pg)
    end.
Proof.
  revert pg. induction location as [|c pre IH] using rev_ind; intros pg.
  - apply handleSpecialLocation_flat_page. reflexivity.
  - destruct (relative_suffix (pre ++ [c])) eqn:Hrs.
    + rewrite relative_suffix_last in Hrs.
      assert (Hc : c = 43%N \/ c = 45%N) by lia.
      unfold classify.
      rewrite !handleSpecialLocation_suffix by exact Hc.
      destruct (getCheck_defined (pre ++ [c])) as [check ->].
      rewrite (IH pg), (IH blank_page).
      destruct (classify pre) as [[phonetic check']|]; reflexivity.
    + apply handleSpecialLocation_flat_page. exact Hrs.
Qed.

(** X7: a call of [handleSpecialLocation] that finds a special location
    overwrites both texts of the page with values that do not depend on
    what the page showed before, and a call that finds none leaves the
    page as it was. *)
Theorem handleSpecialLocation_page (location : jsstring) (pg : page) :
  handleSpecialLocation location pg
  = match classify location with
    | Some (phonetic, check) => (true, mkPage phonetic check)
    | None => (false, pg)
    end.
Proof.
  revert pg. induction location as [|c pre IH] using rev_ind; intros pg.
  - apply handleSpecialLocation_flat_page. reflexivity.
  - destruct (relative_suffix (pre ++ [c])) eqn:Hrs.
    + rewrite relative_suffix_last in Hrs.
      assert (Hc : c = 43%N \/ c = 45%N) by lia.
      unfold classify.
      rewrite !handleSpecialLocation_suffix by exact Hc.
      destruct (getCheck_defined (pre ++ [c])) as [check ->].
      rewrite (IH pg), (IH blank_page).
      destruct (classify pre) as [[phonetic check']|]; reflexivity.
    + apply handleSpecialLocation_flat_page. exact Hrs.
Qed.

Lemma handleSpecialLocation_writes_check (location : jsstring) (pg : page) :
  fst (handleSpecialLocation location pg) = true ->
  location <> str "SOB" -> location <> str "DPA" ->
  getCheck location = Some (checkDiv (snd (handleSpecialLocation location pg))).
Proof.
  intros Htrue Hsob Hdpa.
  destruct (relative_suffix location) eqn:Hrs.
  - destruct (last_char_cases location) as [-> | (pre & c & ->)];
      [discriminate|].
    rewrite relative_suffix_last in Hrs.
    assert (Hc : c = 43%N \/ c = 45%N) by lia.
    rewrite handleSpecialLocation_suffix by exact Hc.
    destruct (getCheck_defined (pre ++ [c])) as [check ->]. reflexivity.
  - destruct (getCheck_defined location) as [check Hcheck].
    pose proof (handleSpecialLocation_flat location pg Hrs) as Hp.
    cbn [handleSpecialLocation_fuel] in Hp. unfold relative_suffix in Hrs.
    rewrite Hrs, Hcheck in Hp.
    apply strict_eq_false in Hsob. apply strict_eq_false in Hdpa.
    rewrite Hsob, Hdpa in Hp.
    repeat match type of Hp with
           | context [if strict_eq ?a ?b then _ else _] =>
             destruct (strict_eq a b)
           end;
      apply Some_eq in Hp; rewrite Hp in *;
      [rewrite Hcheck; reflexivity .. | simpl in Htrue; discriminate].
Qed.


(** X8: whenever [handleSpecialLocation] finds a special location, the
    check it writes is [getCheck] of the whole string it was given, the
    two fixed codes "SOB" and "DPA" apart. *)
Theorem handleSpecialLocation_check (location : jsstring) (pg : page) :
  fst (handleSpecialLocation location pg) = true ->
  location <> str "SOB" -> location <> str "DPA" ->
  getCheck location = Some (checkDiv (snd (handleSpecialLocation location pg))).
Proof.
  intros Htrue Hsob Hdpa.
  destruct (relative_suffix location) eqn:Hrs.
  - destruct (last_char_cases location) as [-> | (pre & c & ->)];
      [discriminate|].
    rewrite relative_suffix_last in Hrs.
    assert (Hc : c = 43%N \/ c = 45%N) by lia.
    rewrite handleSpecialLocation_suffix by exact Hc.
    destruct (getCheck_defined (pre ++ [c])) as [check ->]. reflexivity.
  - destruct (getCheck_defined location) as [check Hcheck].
    pose proof (handleSpecialLocation_flat location pg Hrs) as Hp.
    cbn [handleSpecialLocation_fuel] in Hp. unfold relative_suffix in Hrs.
    rewrite Hrs, Hcheck in Hp.
    apply strict_eq_false in Hsob. apply strict_eq_false in Hdpa.
    rewrite Hsob, Hdpa in Hp.
    repeat match type of Hp with
           | context [if strict_eq ?a ?b then _ else _] =>
             destruct (strict_eq a b)
           end;
      apply Some_eq in Hp; rewrite Hp in *;
      [rewrite Hcheck; reflexivity .. | simpl in Htrue; discriminate].
Qed.

(** X9: [handleSpecialLocation] finds a special location exactly when
    the string ends in '+' or '-', or is "SOB", "DPA" or "RETS", or
    begins with "CA", "CP", "J", "S", "L" or "Z". *)
Theorem handleSpecialLocation_special (location : jsstring) (pg : page) :
  fst (handleSpecialLocation location pg)
  = relative_suffix location
    || strict_eq location (str "SOB") || strict_eq location (str "DPA")
    || strict_eq location (str "RETS")
    || strict_eq (substr location 0 2) (str "CA")
    || strict_eq (substr location 0 2) (str "CP")
    || strict_eq (substr location 0 1) (str "J")
    || strict_eq (substr location 0 1) (str "S")
    || strict_eq (substr location 0 1) (str "L")
    || strict_eq (substr location 0 1) (str "Z").
Proof.
  destruct (relative_suffix location) eqn:Hrs.
  - destruct (last_char_cases location) as [-> | (pre & c & ->)];
      [discriminate|].
    rewrite relative_suffix_last in Hrs.
    assert (Hc : c = 43%N \/ c = 45%N) by lia.
    rewrite handleSpecialLocation_suffix by exact Hc. reflexivity.
  - pose proof (handleSpecialLocation_flat location pg Hrs) as Hp.
    cbn [handleSpecialLocation_fuel] in Hp. unfold relative_suffix in Hrs.
    rewrite Hrs in Hp.
    repeat match type of Hp with
           | context [if strict_eq ?a ?b then _ else _] =>
             destruct (strict_eq a b)
           end;
      apply Some_eq in Hp; rewrite Hp; reflexivity.
Qed.

(** ** The rest of the program: the phonetic of the families in words *)

Lemma dropWhile_all (p : code_unit -> bool) (s : jsstring) :
  forallb p s = true -> dropWhile p s = [].
Proof.
  induction s as [|c s IH]; simpl; [reflexivity|].
  intros H. apply andb_true_iff in H. destruct H as [-> H]. auto.
Qed.

Lemma dropWhile_stop (p : code_unit -> bool) (l : jsstring) (c : code_unit)
    (r : jsstring) :
  forallb p l = true -> p c = false -> dropWhile p (l ++ c :: r) = c :: r.
Proof.
  induction l as [|x l IH]; simpl; intros Hl Hc.
  - rewrite Hc. reflexivity.
  - apply andb_true_iff in Hl. destruct Hl as [-> Hl]. auto.
Qed.

Lemma forallb_rev (p : code_unit -> bool) (s : jsstring) :
  forallb p s = true -> forallb p (rev s) = true.
Proof.
  rewrite !forallb_forall. intros H x Hx. apply H. apply in_rev. exact Hx.
Qed.

(** [trim] takes the white space off both ends of a tight string. *)
Lemma trim_core (l core r : jsstring) :
  forallb is_whitespace l = true -> forallb is_whitespace r = true ->
  tight core -> trim (l ++ core ++ r) = core.
Proof.
  intros Hl Hr (Hne & Hhd & Hlast). unfold trim.
  destruct core as [|c core]; [congruence|]. simpl in Hhd.
  change ((c :: core) ++ r) with (c :: core ++ r).
  rewrite dropWhile_stop by assumption.
  destruct (@exists_last _ (c :: core) Hne) as (core0 & z & Hz).
  rewrite Hz in Hlast. rewrite last_last in Hlast.
  change (c :: core ++ r) with ((c :: core) ++ r). rewrite Hz.
  rewrite rev_app_distr, rev_app_distr. simpl rev at 2. simpl app at 2.
  rewrite dropWhile_stop by (try apply forallb_rev; assumption).
  change (z :: rev core0) with (rev [z] ++ rev core0).
  rewrite <- rev_app_distr. apply rev_involutive.
Qed.

Lemma trim_tight (s : jsstring) : tight s -> trim s = s.
Proof.
  intros H. rewrite <- (trim_core [] s [] eq_refl eq_refl H) at 2.
  rewrite app_nil_r. reflexivity.
Qed.

Lemma last_app_r (a b : jsstring) (d : code_unit) :
  b <> [] -> last (a ++ b) d = last b d.
Proof.
  intros Hb. destruct (@exists_last _ b Hb) as (b0 & z & ->).
  rewrite app_assoc, !last_last. reflexivity.
Qed.

Lemma tight_app (a m b : jsstring) :
  tight a -> tight b -> tight (a ++ m ++ b).
Proof.
  intros (Ha & Hha & _) (Hb & _ & Hlb). split; [|split].
  - destruct a; [congruence | discriminate].
  - destruct a; [congruence | exact Hha].
  - rewrite app_assoc. rewrite last_app_r by exact Hb. exact Hlb.
Qed.

Lemma join_words_cons (w : jsstring) (words : list jsstring) :
  words <> [] ->
  join_words (w :: words) = w ++ str " " ++ join_words words.
Proof. destruct words; [congruence | reflexivity]. Qed.

Lemma join_words_app (a b : list jsstring) :
  a <> [] -> b <> [] ->
  join_words (a ++ b) = join_words a ++ str " " ++ join_words b.
Proof.
  intros Ha Hb. induction a as [|w a IH]; [congruence|].
  destruct a as [|w' a].
  - simpl app. apply join_words_cons. exact Hb.
  - change ((w :: w' :: a) ++ b) with (w :: (w' :: a) ++ b).
    rewrite join_words_cons by discriminate.
    rewrite IH by discriminate.
    rewrite (join_words_cons w) by discriminate.
    rewrite <- !app_assoc. reflexivity.
Qed.

Lemma join_words_tight (words : list jsstring) :
  words <> [] -> Forall tight words -> tight (join_words words).
Proof.
  induction words as [|w words IH]; [congruence|]. intros _ Hall.
  inversion Hall as [|? ? Hw Hws]; subst.
  destruct words as [|w' words]; [exact Hw|].
  rewrite join_words_cons by discriminate.
  apply tight_app; [exact Hw | apply IH; [discriminate | exact Hws]].
Qed.

Lemma tables_tight (w : jsstring) : In w (numbers ++ letters) -> tight w.
Proof.
  assert (H : forallb (fun w => negb (is_empty w)
                                && negb (is_whitespace (hd 0%N w))
                                && negb (is_whitespace (last w 0%N)))
                      (numbers ++ letters) = true) by reflexivity.
  rewrite forallb_forall in H. intros Hin. specialize (H w Hin).
  rewrite !andb_true_iff, !negb_true_iff in H. destruct H as [[H1 H2] H3].
  split; [|split; assumption]. intros ->. discriminate.
Qed.

Lemma phonetic_words_tight (s : jsstring) :
  Forall (fun c => is_upper_alnum c = true) s ->
  Forall tight (map phonetic_word s).
Proof.
  intros H. apply Forall_map. revert H. apply Forall_impl. intros c Hc.
  apply tables_tight. unfold is_upper_alnum, phonetic_word in *.
  apply in_or_app. destruct (is_digit c) eqn:Hd.
  - left. apply nth_In. unfold is_digit in Hd. simpl. lia.
  - right. apply nth_In. simpl. lia.
Qed.

(** The phonetic of digits and capital letters is empty or tight. *)
Lemma getPhonetic_tight (s : jsstring) :
  Forall (fun c => is_upper_alnum c = true) s -> s <> [] ->
  tight (getPhonetic s).
Proof.
  intros H Hne. rewrite getPhonetic_spec_upper_alnum by exact H.
  apply join_words_tight.
  - destruct s; [congruence | discriminate].
  - apply phonetic_words_tight. exact H.
Qed.

(** A family name before the phonetic of the rest. *)
Lemma trim_name_rest (name rest : jsstring) :
  tight name -> Forall (fun c => is_upper_alnum c = true) rest ->
  trim (name ++ str " " ++ getPhonetic rest)
  = join_words (name :: map phonetic_word rest).
Proof.
  intros Hn Hall. destruct rest as [|c rest].
  - change (getPhonetic []) with (@nil N).
    apply (trim_core [] name (str " ") eq_refl eq_refl Hn).
  - rewrite join_words_cons by discriminate.
    rewrite <- getPhonetic_spec_upper_alnum by exact Hall.
    apply trim_tight. apply tight_app; [exact Hn|].
    apply getPhonetic_tight; [exact Hall | discriminate].
Qed.

Lemma map_not_nil (s : jsstring) :
  s <> [] -> map phonetic_word s <> [].
Proof. destruct s; [congruence | discriminate]. Qed.

(** A family name between the phonetics of two parts. *)
Lemma trim_name_between (name a b : jsstring) :
  tight name ->
  Forall (fun c => is_upper_alnum c = true) a ->
  Forall (fun c => is_upper_alnum c = true) b ->
  trim (getPhonetic a ++ (str " " ++ name ++ str " ") ++ getPhonetic b)
  = join_words (map phonetic_word a ++ [name] ++ map phonetic_word b)
  /\ trim (getPhonetic b) = getPhonetic b.
Proof.
  intros Hn Ha Hb.
  assert (Hnil : getPhonetic [] = []) by reflexivity.
  assert (Hta : a <> [] -> tight (getPhonetic a))
    by (apply getPhonetic_tight; exact Ha).
  assert (Htb : b <> [] -> tight (getPhonetic b))
    by (apply getPhonetic_tight; exact Hb).
  assert (Hja : join_words (map phonetic_word a) = getPhonetic a)
    by (symmetry; apply getPhonetic_spec_upper_alnum; exact Ha).
  assert (Hjb : join_words (map phonetic_word b) = getPhonetic b)
    by (symmetry; apply getPhonetic_spec_upper_alnum; exact Hb).
  assert (Hea : a = [] \/ a <> [])
    by (destruct a; [left; reflexivity | right; discriminate]).
  assert (Heb : b = [] \/ b <> [])
    by (destruct b; [left; reflexivity | right; discriminate]).
  split.
  - destruct Hea as [-> | Hane], Heb as [-> | Hbne].
    + rewrite Hnil, app_nil_r.
      apply (trim_core (str " ") name (str " ") eq_refl eq_refl Hn).
    + transitivity (trim (str " " ++ (name ++ str " " ++ getPhonetic b) ++ [])).
      * f_equal. rewrite Hnil, app_nil_r, <- !app_assoc. reflexivity.
      * rewrite trim_core; [| reflexivity | reflexivity
                            | apply tight_app; [exact Hn | apply Htb, Hbne]].
        change (map phonetic_word [] ++ [name] ++ map phonetic_word b)
          with (name :: map phonetic_word b).
        rewrite join_words_cons by (apply map_not_nil, Hbne).
        rewrite Hjb. reflexivity.
    + transitivity (trim ([] ++ (getPhonetic a ++ str " " ++ name) ++ str " ")).
      * f_equal. rewrite Hnil, app_nil_r, <- !app_assoc. reflexivity.
      * rewrite trim_core; [| reflexivity | reflexivity
                            | apply tight_app; [apply Hta, Hane | exact Hn]].
        change (map phonetic_word []) with (@nil (list N)).
        rewrite join_words_app by (try apply map_not_nil; try discriminate; exact Hane).
        rewrite Hja. reflexivity.
    + transitivity (trim ([] ++ (getPhonetic a ++ str " "
                                 ++ name ++ str " " ++ getPhonetic b) ++ [])).
      * f_equal. rewrite app_nil_r, <- !app_assoc. reflexivity.
      * rewrite trim_core; [| reflexivity | reflexivity
          | apply tight_app; [apply Hta, Hane
                             | apply tight_app; [exact Hn | apply Htb, Hbne]]].
        rewrite join_words_app by (try apply map_not_nil; try discriminate; exact Hane).
        change ([name] ++ map phonetic_word b)
          with (name :: map phonetic_word b).
        rewrite join_words_cons by (apply map_not_nil, Hbne).
        rewrite Hja, Hjb. reflexivity.
  - destruct Heb as [-> | Hbne]; [reflexivity|].
    apply trim_tight. apply Htb, Hbne.
Qed.

Lemma upper_alnum_no_sign (s : jsstring) :
  Forall (fun c => is_upper_alnum c = true) s ->
  Forall (fun c => is_sign c = false) s.
Proof.
  apply Forall_impl. intros c. unfold is_upper_alnum, is_digit, is_sign. lia.
Qed.

Ltac tight_name := split; [discriminate | split; reflexivity].

(** Opens a call on a string that the first rule does not take. *)
Ltac open_flat_call Hrs Hcheck :=
  apply Some_eq; rewrite handleSpecialLocation_flat by exact Hrs;
  cbn [handleSpecialLocation_fuel];
  unfold relative_suffix in Hrs; rewrite Hrs, Hcheck.

(** X10: for a code "CA" or "CP" followed by up to four digits and
    capital letters, the phonetic is "CASH OFFICE" or "COLLECTION POINT"
    and then the words of those characters, with single spaces and
    nothing at the ends (the family name alone when no character
    follows); the check is [getCheck] of the whole code. *)
Theorem two_letter_families (rest : jsstring) (pg : page) :
  Forall (fun c => is_upper_alnum c = true) rest ->
  (length rest <= 4)%nat ->
  (exists check,
     getCheck (str "CA" ++ rest) = Some check
     /\ handleSpecialLocation (str "CA" ++ rest) pg
        = (true,
           mkPage (join_words (str "CASH OFFICE" :: map phonetic_word rest))
                  check))
  /\ (exists check,
        getCheck (str "CP" ++ rest) = Some check
        /\ handleSpecialLocation (str "CP" ++ rest) pg
           = (true,
              mkPage (join_words (str "COLLECTION POINT"
                                  :: map phonetic_word rest))
                     check)).
Proof.
  intros Hall Hlen. pose proof (upper_alnum_no_sign rest Hall) as Hns.
  split.
  - assert (Hrs : relative_suffix (str "CA" ++ rest) = false)
      by (apply relative_suffix_no_sign; repeat constructor; exact Hns).
    destruct (getCheck_defined (str "CA" ++ rest)) as [check Hcheck].
    exists check. split; [exact Hcheck|].
    open_flat_call Hrs Hcheck.
    change (str "CA" ++ rest) with (67%N :: 65%N :: rest).
    rewrite substr_0_2_cons, substr_2_4_cons, firstn_all2 by exact Hlen.
    decide_rules.
    change (str "CASH OFFICE " ++ getPhonetic rest)
      with (str "CASH OFFICE" ++ str " " ++ getPhonetic rest).
    rewrite trim_name_rest by (try tight_name; exact Hall). reflexivity.
  - assert (Hrs : relative_suffix (str "CP" ++ rest) = false)
      by (apply relative_suffix_no_sign; repeat constructor; exact Hns).
    destruct (getCheck_defined (str "CP" ++ rest)) as [check Hcheck].
    exists check. split; [exact Hcheck|].
    open_flat_call Hrs Hcheck.
    change (str "CP" ++ rest) with (67%N :: 80%N :: rest).
    rewrite substr_0_2_cons, substr_2_4_cons, firstn_all2 by exact Hlen.
    decide_rules.
    change (str "COLLECTION POINT " ++ getPhonetic rest)
      with (str "COLLECTION POINT" ++ str " " ++ getPhonetic rest).
    rewrite trim_name_rest by (try tight_name; exact Hall). reflexivity.
Qed.

Lemma substr_1_4_cons (a : code_unit) (s : jsstring) :
  substr (a :: s) 1 4 = firstn 4 s.
Proof. rewrite substr_pos by lia. reflexivity. Qed.

Lemma substr_1_2_cons (a : code_unit) (s : jsstring) :
  substr (a :: s) 1 2 = firstn 2 s.
Proof. rewrite substr_pos by lia. reflexivity. Qed.

Lemma substr_3_4_cons (a : code_unit) (s : jsstring) :
  substr (a :: s) 3 4 = firstn 4 (skipn 2 s).
Proof. rewrite substr_pos by lia. reflexivity. Qed.

(** X11: for a code "J" or "S" followed by up to four digits and
    capital letters, "SOB" apart, the phonetic is "JEWELLERY" or
    "SECURITY" and then the words of those characters, with single spaces
    and nothing at the ends; the check is [getCheck] of the whole code. *)
Theorem one_letter_families (rest : jsstring) (pg : page) :
  Forall (fun c => is_upper_alnum c = true) rest ->
  (length rest <= 4)%nat ->
  (exists check,
     getCheck (str "J" ++ rest) = Some check
     /\ handleSpecialLocation (str "J" ++ rest) pg
        = (true,
           mkPage (join_words (str "JEWELLERY" :: map phonetic_word rest))
                  check))
  /\ (rest <> str "OB" ->
      exists check,
        getCheck (str "S" ++ rest) = Some check
        /\ handleSpecialLocation (str "S" ++ rest) pg
           = (true,
              mkPage (join_words (str "SECURITY" :: map phonetic_word rest))
                     check)).
Proof.
  intros Hall Hlen. pose proof (upper_alnum_no_sign rest Hall) as Hns.
  split.
  - assert (Hrs : relative_suffix (str "J" ++ rest) = false)
      by (apply relative_suffix_no_sign; repeat constructor; exact Hns).
    destruct (getCheck_defined (str "J" ++ rest)) as [check Hcheck].
    exists check. split; [exact Hcheck|].
    open_flat_call Hrs Hcheck.
    change (str "J" ++ rest) with (74%N :: rest).
    rewrite substr_0_2_single, substr_0_1_cons, substr_1_4_cons,
      (@firstn_all2 _ 4 rest Hlen).
    decide_rules.
    change (str "JEWELLERY " ++ getPhonetic rest)
      with (str "JEWELLERY" ++ str " " ++ getPhonetic rest).
    rewrite trim_name_rest by (try tight_name; exact Hall). reflexivity.
  - intros Hob.
    assert (Hrs : relative_suffix (str "S" ++ rest) = false)
      by (apply relative_suffix_no_sign; repeat constructor; exact Hns).
    destruct (getCheck_defined (str "S" ++ rest)) as [check Hcheck].
    exists check. split; [exact Hcheck|].
    open_flat_call Hrs Hcheck.
    change (str "S" ++ rest) with (83%N :: rest).
    assert (Hsob : strict_eq (83%N :: rest) (str "SOB") = false).
    { apply strict_eq_false. intros H. apply Hob. injection H as H. exact H. }
    rewrite Hsob.
    rewrite substr_0_2_single, substr_0_1_cons, substr_1_4_cons,
      (@firstn_all2 _ 4 rest Hlen).
    decide_rules.
    change (str "SECURITY " ++ getPhonetic rest)
      with (str "SECURITY" ++ str " " ++ getPhonetic rest).
    rewrite trim_name_rest by (try tight_name; exact Hall). reflexivity.
Qed.

Lemma Forall_firstn_skipn (P : code_unit -> Prop) (n : nat) (s : jsstring) :
  Forall P s -> Forall P (firstn n s) /\ Forall P (skipn n s).
Proof.
  intros H. rewrite <- (firstn_skipn n s) in H.
  apply Forall_app in H. exact H.
Qed.

(** X12: for a code "L" or "Z" followed by up to six digits and capital
    letters, the phonetic is the words of the first two of them, then
    "LINBIN" or "BULK", then the words of the others, with single spaces
    and nothing at the ends, also when a part is empty; the check is
    [getCheck] of the whole code. *)
Theorem infix_families (rest : jsstring) (pg : page) :
  Forall (fun c => is_upper_alnum c = true) rest ->
  (length rest <= 6)%nat ->
  (exists check,
     getCheck (str "L" ++ rest) = Some check
     /\ handleSpecialLocation (str "L" ++ rest) pg
        = (true,
           mkPage (join_words (map phonetic_word (firstn 2 rest)
                               ++ [str "LINBIN"]
                               ++ map phonetic_word (skipn 2 rest)))
                  check))
  /\ (exists check,
        getCheck (str "Z" ++ rest) = Some check
        /\ handleSpecialLocation (str "Z" ++ rest) pg
           = (true,
              mkPage (join_words (map phonetic_word (firstn 2 rest)
                                  ++ [str "BULK"]
                                  ++ map phonetic_word (skipn 2 rest)))
                     check)).
Proof.
  intros Hall Hlen. pose proof (upper_alnum_no_sign rest Hall) as Hns.
  destruct (Forall_firstn_skipn _ 2 rest Hall) as [Hfirst Hothers].
  assert (Hsk : firstn 4 (skipn 2 rest) = skipn 2 rest)
    by (apply firstn_all2; rewrite length_skipn; lia).
  split.
  - assert (Hrs : relative_suffix (str "L" ++ rest) = false)
      by (apply relative_suffix_no_sign; repeat constructor; exact Hns).
    destruct (getCheck_defined (str "L" ++ rest)) as [check Hcheck].
    exists check. split; [exact Hcheck|].
    open_flat_call Hrs Hcheck.
    change (str "L" ++ rest) with (76%N :: rest).
    rewrite substr_0_2_single, substr_0_1_cons, substr_1_2_cons,
      substr_3_4_cons, Hsk.
    decide_rules.
    change (str " LINBIN ") with (str " " ++ str "LINBIN" ++ str " ").
    rewrite app_assoc, <- (app_assoc (getPhonetic (firstn 2 rest))).
    rewrite (proj1 (trim_name_between (str "LINBIN") _ _
                      ltac:(tight_name) Hfirst Hothers)).
    reflexivity.
  - assert (Hrs : relative_suffix (str "Z" ++ rest) = false)
      by (apply relative_suffix_no_sign; repeat constructor; exact Hns).
    destruct (getCheck_defined (str "Z" ++ rest)) as [check Hcheck].
    exists check. split; [exact Hcheck|].
    open_flat_call Hrs Hcheck.
    change (str "Z" ++ rest) with (90%N :: rest).
    rewrite substr_0_2_single, substr_0_1_cons, substr_1_2_cons,
      substr_3_4_cons, Hsk.
    decide_rules.
    rewrite (proj2 (trim_name_between (str "BULK") _ _
                      ltac:(tight_name) Hfirst Hothers)).
    change (str " BULK ") with (str " " ++ str "BULK" ++ str " ").
    rewrite app_assoc, <- (app_assoc (getPhonetic (firstn 2 rest))).
    rewrite (proj1 (trim_name_between (str "BULK") _ _
                      ltac:(tight_name) Hfirst Hothers)).
    reflexivity.
Qed.

(** ** The rest of the program: [filterLocation] *)

Lemma charAt_middle (pre : jsstring) (c : code_unit) (suf : jsstring) :
  charAt (pre ++ c :: suf) (size pre) = [c].
Proof.
  unfold charAt. pose proof (size_nonneg pre). pose proof (size_nonneg suf).
  rewrite size_app, size_cons.
  destruct (Z.leb_spec 0 (size pre)); [|lia].
  destruct (Z.ltb_spec (size pre) (size pre + (size suf + 1))); [|lia].
  simpl. unfold size. rewrite Nat2Z.id, app_nth2, Nat.sub_diag by lia.
  reflexivity.
Qed.

(** One round of the loop of [filterLocation]. *)
Lemma filterLocation_body_middle (pre : jsstring) (c : code_unit)
    (suf filtered : jsstring) :
  filterLocation_body (pre ++ c :: suf) filtered (size pre)
  = filtered ++ (if keeps (size pre) c then [c] else []).
Proof.
  unfold filterLocation_body, keeps. rewrite charAt_middle.
  unfold match_alnum, match_sign. simpl. rewrite !andb_true_r.
  destruct (is_alnum c || (size pre =? 3) && is_sign c);
    [reflexivity | symmetry; apply app_nil_r].
Qed.

Lemma filterLocation_rounds (rounds : nat) :
  forall pre suf acc : jsstring,
    fold_left (filterLocation_body (pre ++ suf))
              (counter (size pre) (Nat.min (length suf) rounds)) acc
    = acc ++ kept_from (size pre) suf rounds.
Proof.
  induction rounds as [|rounds IH]; intros pre suf acc.
  - rewrite Nat.min_0_r. simpl. symmetry. apply app_nil_r.
  - destruct suf as [|c suf].
    + simpl. symmetry. apply app_nil_r.
    + change (Nat.min (length (c :: suf)) (S rounds))
        with (S (Nat.min (length suf) rounds)).
      unfold size at 1. rewrite counter_S. cbn [fold_left kept_from].
      change (Z.of_nat (length pre)) with (size pre).
      rewrite filterLocation_body_middle.
      replace (pre ++ c :: suf) with ((pre ++ [c]) ++ suf)
        by (rewrite <- app_assoc; reflexivity).
      replace (Z.of_nat (S (length pre))) with (size (pre ++ [c]))
        by (unfold size; rewrite length_app; simpl; lia).
      rewrite IH. rewrite size_app. change (size [c]) with 1.
      rewrite <- app_assoc. reflexivity.
Qed.

(** The loop keeps, of the first four characters, those that [keeps]
    lets through. *)
Lemma filterLocation_filtered_kept (input : jsstring) :
  filterLocation_filtered input = kept_from 0 input 4.
Proof.
  unfold filterLocation_filtered.
  apply (filterLocation_rounds 4 [] input []).
Qed.


(** What is kept is letters and digits, and after them the fourth
    character of the input when that is a '+' or a '-'. *)
Lemma kept_from_shape (rounds : nat) :
  forall (s : jsstring) (i : Z),
    0 <= i -> i + Z.of_nat rounds = 4 ->
    exists body suffix,
      kept_from i s rounds = body ++ suffix
      /\ Forall (fun c => is_alnum c = true) body
      /\ (length body + length suffix <= rounds)%nat
      /\ (suffix = []
          \/ is_sign (nth (Z.to_nat (3 - i)) s 0%N) = true
             /\ suffix = [nth (Z.to_nat (3 - i)) s 0%N]).
Proof.
  induction rounds as [|rounds IH]; intros s i Hi Hsum.
  - exists [], []. simpl. repeat split; auto.
  - destruct s as [|c s].
    + exists [], []. simpl. repeat split; auto. lia.
    + destruct (IH s (i + 1) ltac:(lia) ltac:(lia))
        as (body & suffix & Hk & Hb & Hlen & Hsuf).
      cbn [kept_from]. unfold keeps.
      destruct (is_alnum c) eqn:Ha.
      * exists (c :: body), suffix. rewrite Hk.
        split; [reflexivity|]. split; [constructor; assumption|].
        split; [cbn [length]; lia|].
        destruct Hsuf as [-> | [Hs ->]]; [left; reflexivity | right].
        assert (Hrounds : (0 < rounds)%nat) by (cbn [length] in Hlen; lia).
        replace (Z.to_nat (3 - i)) with (S (Z.to_nat (3 - (i + 1)))) by lia.
        cbn [nth]. split; [exact Hs | reflexivity].
      * cbn [orb]. destruct ((i =? 3) && is_sign c) eqn:E.
        -- assert (Hr : rounds = 0%nat) by lia. subst rounds.
           exists [], [c].
           split; [reflexivity|]. split; [constructor|].
           split; [cbn [length]; lia|].
           right. replace (3 - i) with 0 by lia.
           split; [cbn [Z.to_nat nth]; lia | reflexivity].
        -- exists body, suffix. rewrite Hk.
           split; [reflexivity|]. split; [exact Hb|]. split; [lia|].
           destruct Hsuf as [-> | [Hs ->]]; [left; reflexivity | right].
           assert (Hrounds : (0 < rounds)%nat) by (cbn [length] in Hlen; lia).
           replace (Z.to_nat (3 - i)) with (S (Z.to_nat (3 - (i + 1)))) by lia.
           cbn [nth]. split; [exact Hs | reflexivity].
Qed.

(** Letters and digits are kept wherever they are, as far as the rounds
    go. *)
Lemma kept_from_alnum (body : jsstring) :
  forall (i : Z) (rounds : nat),
    Forall (fun c => is_alnum c = true) body ->
    (length body <= rounds)%nat ->
    kept_from i body rounds = body.
Proof.
  induction body as [|c body IH]; intros i rounds Hall Hlen.
  - destruct rounds; reflexivity.
  - destruct rounds as [|rounds]; [simpl in Hlen; lia|].
    inversion Hall as [|? ? Hc Hb]; subst.
    cbn [kept_from]. unfold keeps. rewrite Hc. simpl.
    rewrite IH; [reflexivity | exact Hb | simpl in Hlen; lia].
Qed.

(** A '+' or '-' after letters and digits is kept exactly at the fourth
    position. *)
Lemma kept_from_sign (body : jsstring) (s : code_unit) :
  forall (i : Z) (rounds : nat),
    Forall (fun c => is_alnum c = true) body ->
    is_sign s = true ->
    (length body < rounds)%nat ->
    kept_from i (body ++ [s]) rounds
    = if i + size body =? 3 then body ++ [s] else body.
Proof.
  induction body as [|c body IH]; intros i rounds Hall Hs Hlen.
  - destruct rounds as [|rounds]; [simpl in Hlen; lia|].
    cbn [app kept_from]. unfold keeps.
    assert (Ha : is_alnum s = false)
      by (unfold is_alnum, is_digit, is_sign in *; lia).
    rewrite Ha, Hs. change (size []) with 0. rewrite Z.add_0_r.
    destruct (i =? 3); destruct rounds; reflexivity.
  - destruct rounds as [|rounds]; [simpl in Hlen; lia|].
    inversion Hall as [|? ? Hc Hb]; subst.
    cbn [app kept_from]. unfold keeps. rewrite Hc. simpl.
    rewrite IH by (try assumption; simpl in Hlen; lia).
    rewrite size_cons.
    replace (i + 1 + size body) with (i + (size body + 1)) by lia.
    destruct (i + (size body + 1) =? 3); reflexivity.
Qed.

(** What [filterLocation] keeps is ASCII. *)
Lemma filterLocation_filtered_ascii (input : jsstring) :
  Forall is_ascii (filterLocation_filtered input).
Proof.
  rewrite filterLocation_filtered_kept.
  destruct (kept_from_shape 4 input 0 ltac:(lia) ltac:(lia))
    as (body & suffix & -> & Hb & _ & Hsuf).
  apply Forall_app. split.
  - revert Hb. apply Forall_impl. intros c Hc. apply is_alnum_ascii. exact Hc.
  - destruct Hsuf as [-> | [Hs ->]]; [constructor|].
    repeat constructor. unfold is_sign, is_ascii in *. lia.
Qed.


Lemma filterLocation_fst (input : jsstring) (pg : page) :
  fst (filterLocation input pg) = filterLocation_filtered input.
Proof.
  unfold filterLocation.
  destruct (handleSpecialLocation _ pg) as [special pg']. reflexivity.
Qed.

(** X14: [filterLocation] returns unchanged a string of up to four
    letters and digits, and a string of three letters and digits followed
    by a '+' or a '-'. *)
Theorem filterLocation_valid (body : jsstring) (s : code_unit) (pg : page) :
  Forall (fun c => is_alnum c = true) body ->
  ((length body <= 4)%nat -> fst (filterLocation body pg) = body)
  /\ (length body = 3%nat -> is_sign s = true ->
      fst (filterLocation (body ++ [s]) pg) = body ++ [s]).
Proof.
  intros Hall. rewrite !filterLocation_fst, !filterLocation_filtered_kept.
  split.
  - intros Hlen. apply kept_from_alnum; assumption.
  - intros Hlen Hs. rewrite kept_from_sign by (try assumption; lia).
    unfold size. rewrite Hlen. reflexivity.
Qed.


Lemma upper_ascii_class (c : code_unit) :
  upper_ascii (upper_ascii c) = upper_ascii c
  /\ is_alnum (upper_ascii c) = is_alnum c
  /\ is_sign (upper_ascii c) = is_sign c
  /\ (is_alnum c = true -> is_upper_alnum (upper_ascii c) = true).
Proof.
  unfold upper_ascii, is_alnum, is_upper_alnum, is_digit, is_sign.
  destruct ((97 <=? c) && (c <=? 122))%N eqn:E.
  - assert (E' : ((97 <=? c - 32) && (c - 32 <=? 122))%N = false) by lia.
    rewrite E'. repeat split; lia.
  - rewrite E. repeat split; lia.
Qed.


Lemma size_zero_empty (s : jsstring) : (size s =? 0) = is_empty s.
Proof.
  destruct s; [reflexivity|]. rewrite size_cons.
  pose proof (size_nonneg s). apply Z.eqb_neq. lia.
Qed.

Lemma classify_suffix (pre : jsstring) (c : code_unit) :
  is_sign c = true -> classify (pre ++ [c]) <> None.
Proof.
  intros Hs. assert (Hc : c = 43%N \/ c = 45%N) by (unfold is_sign in Hs; lia).
  unfold classify. rewrite handleSpecialLocation_suffix by exact Hc.
  discriminate.
Qed.

(** The page [filterLocation] leaves. *)
Lemma filterLocation_result (input : jsstring) (pg : page) :
  exists check,
    getCheck (map upper_ascii (filterLocation_filtered input)) = Some check
    /\ filterLocation input pg
       = (filterLocation_filtered input,
          match classify (map upper_ascii (filterLocation_filtered input)) with
          | Some (phonetic, check') => mkPage phonetic check'
          | None =>
            mkPage (if is_empty (filterLocation_filtered input)
                    then str "NONE"
                    else join_words
                           (map phonetic_word
                                (map upper_ascii
                                     (filterLocation_filtered input))))
                   check
          end).
Proof.
  destruct (getCheck_defined (map upper_ascii (filterLocation_filtered input)))
    as [check Hcheck].
  exists check. split; [exact Hcheck|].
  unfold filterLocation.
  rewrite (toUpperCase_ascii _ (filterLocation_filtered_ascii input)).
  rewrite handleSpecialLocation_classify.
  destruct (classify (map upper_ascii (filterLocation_filtered input)))
    as [[phonetic check']|] eqn:E; [reflexivity|].
  cbn [negb]. rewrite Hcheck, size_zero_empty. cbn [set_phonetic set_check
    phoneticDiv]. f_equal. f_equal.
  destruct (is_empty (filterLocation_filtered input)) eqn:Hempty;
    [reflexivity|].
  apply getPhonetic_spec_upper_alnum.
  revert E. rewrite filterLocation_filtered_kept.
  destruct (kept_from_shape 4 input 0 ltac:(lia) ltac:(lia))
    as (body & suffix & -> & Hb & _ & Hsuf).
  destruct Hsuf as [-> | [Hs ->]].
  - intros _. rewrite app_nil_r. apply Forall_map. revert Hb.
    apply Forall_impl. intros c Hc. apply upper_ascii_class. exact Hc.
  - intros E. exfalso. revert E. rewrite map_app. cbn [map].
    apply classify_suffix.
    destruct (upper_ascii_class (nth (Z.to_nat (3 - 0)) input 0%N))
      as (_ & _ & -> & _).
    exact Hs.
Qed.

(** X16: [filterLocation] returns the filtered string as typed and
    writes the page from its upper-cased form alone: what the special
    location rules give when one applies, and otherwise "NONE" for an
    empty string or the words of the letters and digits joined with
    spaces, with [getCheck] as the check.  What the page showed before
    has no part in it. *)
Theorem filterLocation_page (input : jsstring) (pg : page) :
  exists check,
    getCheck (map upper_ascii (filterLocation_filtered input)) = Some check
    /\ filterLocation input pg
       = (filterLocation_filtered input,
          match classify (map upper_ascii (filterLocation_filtered input)) with
          | Some (phonetic, check') => mkPage phonetic check'
          | None =>
            mkPage (if is_empty (filterLocation_filtered input)
                    then str "NONE"
                    else join_words
                           (map phonetic_word
                                (map upper_ascii
                                     (filterLocation_filtered input))))
                   check
          end).
Proof.
  destruct (getCheck_defined (map upper_ascii (filterLocation_filtered input)))
    as [check Hcheck].
  exists check. split; [exact Hcheck|].
  unfold filterLocation.
  rewrite (toUpperCase_ascii _ (filterLocation_filtered_ascii input)).
  rewrite handleSpecialLocation_classify.
  destruct (classify (map upper_ascii (filterLocation_filtered input)))
    as [[phonetic check']|] eqn:E; [reflexivity|].
  cbn [negb]. rewrite Hcheck, size_zero_empty. cbn [set_phonetic set_check
    phoneticDiv]. f_equal. f_equal.
  destruct (is_empty (filterLocation_filtered input)) eqn:Hempty;
    [reflexivity|].
  apply getPhonetic_spec_upper_alnum.
  revert E. rewrite filterLocation_filtered_kept.
  destruct (kept_from_shape 4 input 0 ltac:(lia) ltac:(lia))
    as (body & suffix & -> & Hb & _ & Hsuf).
  destruct Hsuf as [-> | [Hs ->]].
  - intros _. rewrite app_nil_r. apply Forall_map. revert Hb.
    apply Forall_impl. intros c Hc. apply upper_ascii_class. exact Hc.
  - intros E. exfalso. revert E. rewrite map_app. cbn [map].
    apply classify_suffix.
    destruct (upper_ascii_class (nth (Z.to_nat (3 - 0)) input 0%N))
      as (_ & _ & -> & _).
    exact Hs.
Qed.

Lemma kept_from_nothing (rounds : nat) :
  forall (s : jsstring) (i : Z),
    Forall (fun c => is_alnum c = false /\ is_sign c = false) s ->
    kept_from i s rounds = [].
Proof.
  induction rounds as [|rounds IH]; intros s i Hall; [reflexivity|].
  destruct s as [|c s]; [reflexivity|].
  inversion Hall as [|? ? [Ha Hs] Hrest]; subst.
  cbn [kept_from]. unfold keeps. rewrite Ha, Hs, andb_false_r.
  simpl. apply IH. exact Hrest.
Qed.

(** X17: when the input has no letter, digit, '+' or '-' (when it is
    empty, for one), [filterLocation] returns the empty string and the
    page shows "NONE" as the phonetic and "NONE" as the check. *)
Theorem filterLocation_nothing (input : jsstring) (pg : page) :
  Forall (fun c => is_alnum c = false /\ is_sign c = false) input ->
  filterLocation input pg = ([], mkPage (str "NONE") (str "NONE")).
Proof.
  intros Hall.
  destruct (filterLocation_result input pg) as (check & Hcheck & ->).
  rewrite filterLocation_filtered_kept in *.
  rewrite (kept_from_nothing 4 input 0 Hall) in *.
  simpl in Hcheck. injection Hcheck as <-. reflexivity.
Qed.


(** X19: the check [filterLocation] leaves on the page is "SIERRA" for
    "SOB", "VICTOR" for "DPA", and for every other input [getCheck] of the
    whole filtered string in capitals, whichever rule wrote it. *)
Theorem filterLocation_check (input : jsstring) (pg : page) :
  (map upper_ascii (filterLocation_filtered input) = str "SOB" ->
   checkDiv (snd (filterLocation input pg)) = str "SIERRA")
  /\ (map upper_ascii (filterLocation_filtered input) = str "DPA" ->
      checkDiv (snd (filterLocation input pg)) = str "VICTOR")
  /\ (map upper_ascii (filterLocation_filtered input) <> str "SOB" ->
      map upper_ascii (filterLocation_filtered input) <> str "DPA" ->
      getCheck (map upper_ascii (filterLocation_filtered input))
      = Some (checkDiv (snd (filterLocation input pg)))).
Proof.
  destruct (filterLocation_result input pg) as (check & Hcheck & ->).
  cbn [snd]. split; [|split].
  - intros ->. reflexivity.
  - intros ->. reflexivity.
  - intros Hsob Hdpa.
    pose proof (handleSpecialLocation_classify
                  (map upper_ascii (filterLocation_filtered input))
                  blank_page) as Hcall.
    pose proof (handleSpecialLocation_writes_check
                  (map upper_ascii (filterLocation_filtered input))
                  blank_page) as Hw.
    destruct (classify _) as [[phonetic check']|].
    + rewrite Hcall in Hw. apply Hw; [reflexivity | exact Hsob | exact Hdpa].
    + exact Hcheck.
Qed.
End Program.

(** ** The program on the Basic Latin block

    [asciiUpperCase] is an upper-casing function as the program is
    modelled over; with it the functions run. *)

Lemma asciiUpperCase_ascii (s : jsstring) :
  Forall is_ascii s -> asciiUpperCase s = map upper_ascii s.
Proof. intros _. reflexivity. Qed.

(** The test of the loop fails for a '+' in the fourth place of a string
    of four characters: the string ends there, the compared substring is
    "+" alone, and the '+' is left out of the phonetic. *)
Lemma getPhonetic_leaves_out_last_plus :
  0 < 3 < size (str "ABC+")
  /\ ~ (1 < length (substr (str "ABC+") 3 (3 + 1)))%nat
  /\ substr (str "ABC+") 3 (3 + 1) = str "+"
  /\ not_plus (str "ABC+") 3 = false
  /\ getPhonetic asciiUpperCase (str "ABC+") = str "ALPHA BRAVO CHARLIE ".
Proof.
  split; [split; reflexivity|].
  split; [simpl; lia|].
  repeat split.
Qed.

(** A '+' between two characters and a '-' anywhere are looked up, and
    no table has them. *)
Example getPhonetic_inner_plus_and_minus :
  getPhonetic asciiUpperCase (str "A+B-") = str "ALPHA undefined BRAVO undefined".
Proof. reflexivity. Qed.

(** Beyond six characters [substr(2, 4)] stops short of the end of the
    code. *)
Example cash_office_seven_characters :
  handleSpecialLocation asciiUpperCase (str "CA12345") blank_page
  = (true, mkPage (str "CASH OFFICE ONE TWO THREE FOUR") (str "NONE")).
Proof. reflexivity. Qed.

(** The weighted letter of "CA12". *)
Lemma getCheck_weighted_letter_witness :
  length (str "CA12") = 4%nat
  /\ getCheck asciiUpperCase (str "CA12")
     = letter_word (spec_check_letter (str "CA12")).
Proof.
  split; [reflexivity|].
  exact (proj1 (getCheck_weighted_letter asciiUpperCase asciiUpperCase_ascii
                  (str "CA12") eq_refl)).
Defined.

(** "AB" has no check, "AAAA" has one word. *)
Lemma getCheck_none_or_word_witness :
  getCheck asciiUpperCase (str "AB") = Some (str "NONE")
  /\ exists w, getCheck asciiUpperCase (str "AAAA") = Some w
               /\ In w letters /\ w <> str "NONE" /\ ~ In 32%N w.
Proof.
  split.
  - apply (proj1 (getCheck_none_or_word asciiUpperCase asciiUpperCase_ascii
                    (str "AB"))).
    simpl. lia.
  - apply (proj2 (getCheck_none_or_word asciiUpperCase asciiUpperCase_ascii
                    (str "AAAA"))).
    reflexivity.
Defined.

(** From "AAAA" to "AAAB". *)
Lemma getCheck_last_plus_one_witness :
  exists k, (k < 26)%nat
    /\ getCheck asciiUpperCase (str "AAAA") = nth_error letters k
    /\ getCheck asciiUpperCase (str "AAAB") = nth_error letters ((k + 3) mod 26).
Proof.
  exact (proj1 (getCheck_last_plus_one asciiUpperCase asciiUpperCase_ascii
                  65%N 65%N 65%N 65%N)).
Defined.

(** The phonetic of "S1A", "Z" and "9". *)
Lemma getPhonetic_upper_alnum_witness :
  Forall (fun c => is_upper_alnum c = true) (str "S1A")
  /\ getPhonetic asciiUpperCase (str "S1A")
     = join_words (map phonetic_word (str "S1A"))
  /\ Some (getPhonetic asciiUpperCase (str "Z")) = nth_error letters 25
  /\ Some (getPhonetic asciiUpperCase (str "9")) = nth_error numbers 9.
Proof.
  assert (H : Forall (fun c => is_upper_alnum c = true) (str "S1A"))
    by (repeat constructor).
  split; [exact H|]. split; [|split].
  - exact (proj1 (getPhonetic_upper_alnum asciiUpperCase
                    asciiUpperCase_ascii) (str "S1A") H).
  - apply (proj1 (proj2 (getPhonetic_upper_alnum asciiUpperCase
                           asciiUpperCase_ascii)) 25%nat). lia.
  - apply (proj1 (proj2 (proj2 (getPhonetic_upper_alnum asciiUpperCase
                                  asciiUpperCase_ascii))) 9%nat). lia.
Defined.

(** The test of the loop at the second character of "A-" and of "A+". *)
Lemma getPhonetic_plus_test_witness :
  not_plus (str "A-") 1 = true
  /\ (not_plus (str "A+") 1 = false
      <-> charCodeAt (str "A+") 1 = Num 43
          /\ (1 = 0 \/ 1 = size (str "A+") - 1)).
Proof.
  split.
  - apply (proj1 (getPhonetic_plus_test asciiUpperCase (str "A-")) 1).
    + split; [discriminate | reflexivity].
    + reflexivity.
  - apply (proj1 (proj2 (getPhonetic_plus_test asciiUpperCase (str "A+"))) 1).
    split; [discriminate | reflexivity].
Defined.

(** The first rule on "S1A+". *)
Lemma relative_suffix_rule_witness :
  exists check,
    getCheck asciiUpperCase (str "S1A" ++ [43%N]) = Some check
    /\ handleSpecialLocation asciiUpperCase (str "S1A" ++ [43%N]) blank_page
       = (true,
          mkPage
            ((if (43 =? 43)%N then str "AFTER " else str "BEFORE ")
             ++ (if fst (handleSpecialLocation asciiUpperCase (str "S1A")
                           blank_page)
                 then phoneticDiv (snd (handleSpecialLocation asciiUpperCase
                                          (str "S1A") blank_page))
                 else getPhonetic asciiUpperCase (str "S1A")))
            check).
Proof.
  apply (proj1 (relative_suffix_rule asciiUpperCase asciiUpperCase_ascii)
           (str "S1A") 43%N blank_page).
  left. reflexivity.
Defined.

(** "SOB" on a blank page. *)
Lemma fixed_codes_witness :
  handleSpecialLocation asciiUpperCase (str "SOB") blank_page
  = (true, mkPage (str "SOB") (str "SIERRA")).
Proof.
  exact (proj1 (fixed_codes asciiUpperCase asciiUpperCase_ascii blank_page)).
Defined.

(** The cash office rule on "CA12". *)
Lemma cash_office_rule_witness :
  relative_suffix (str "CA" ++ str "12") = false
  /\ (length (str "12") <= 4)%nat
  /\ substr (str "CA" ++ str "12") 2 4 = str "12"
  /\ exists check,
       getCheck asciiUpperCase (str "CA" ++ str "12") = Some check
       /\ handleSpecialLocation asciiUpperCase (str "CA" ++ str "12") blank_page
          = (true,
             mkPage (trim (str "CASH OFFICE "
                           ++ getPhonetic asciiUpperCase
                                (substr (str "CA" ++ str "12") 2 4)))
                    check).
Proof.
  assert (Hrs : relative_suffix (str "CA" ++ str "12") = false) by reflexivity.
  assert (Hlen : (length (str "12") <= 4)%nat) by (simpl; lia).
  split; [exact Hrs|]. split; [exact Hlen|]. split.
  - exact (proj2 (proj1 (cash_office_rule asciiUpperCase asciiUpperCase_ascii)
                    (str "12") blank_page Hrs) Hlen).
  - exact (proj1 (proj1 (cash_office_rule asciiUpperCase asciiUpperCase_ascii)
                    (str "12") blank_page Hrs)).
Defined.

(** The linbin rule on "L12A". *)
Lemma linbin_rule_witness :
  relative_suffix (str "L" ++ str "12A") = false
  /\ exists check,
       getCheck asciiUpperCase (str "L" ++ str "12A") = Some check
       /\ handleSpecialLocation asciiUpperCase (str "L" ++ str "12A") blank_page
          = (true,
             mkPage (trim (getPhonetic asciiUpperCase
                             (substr (str "L" ++ str "12A") 1 2)
                           ++ str " LINBIN "
                           ++ getPhonetic asciiUpperCase
                                (substr (str "L" ++ str "12A") 3 4)))
                    check).
Proof.
  assert (Hrs : relative_suffix (str "L" ++ str "12A") = false) by reflexivity.
  split; [exact Hrs|].
  exact (proj1 (linbin_rule asciiUpperCase asciiUpperCase_ascii)
           (str "12A") blank_page Hrs).
Defined.

(** Fuel for five calls on "S1A+" and on "CA12". *)
Lemma handleSpecialLocation_terminates_witness :
  (length (str "S1A+") < 5)%nat
  /\ handleSpecialLocation_fuel asciiUpperCase 5 (str "S1A+") blank_page
     = Some (handleSpecialLocation asciiUpperCase (str "S1A+") blank_page)
  /\ relative_suffix (str "S1A+") = true
  /\ (length (substr (str "S1A+") 0 (size (str "S1A+") - 1))
      < length (str "S1A+"))%nat
  /\ relative_suffix (str "CA12") = false
  /\ handleSpecialLocation_fuel asciiUpperCase 5 (str "CA12") blank_page
     = handleSpecialLocation_fuel asciiUpperCase 1 (str "CA12") blank_page.
Proof.
  assert (Hlen : (length (str "S1A+") < 5)%nat) by (simpl; lia).
  assert (Hrs : relative_suffix (str "S1A+") = true) by reflexivity.
  assert (Hno : relative_suffix (str "CA12") = false) by reflexivity.
  split; [exact Hlen|]. split; [|split; [exact Hrs|split; [|split; [exact Hno|]]]].
  - exact (proj1 (handleSpecialLocation_terminates asciiUpperCase
                    (str "S1A+") blank_page) 5%nat Hlen).
  - exact (proj1 (proj1 (proj2 (handleSpecialLocation_terminates asciiUpperCase
                                  (str "S1A+") blank_page)) Hrs)).
  - exact (proj1 (proj2 (proj2 (handleSpecialLocation_terminates asciiUpperCase
                                  (str "CA12") blank_page))) Hno 4%nat).
Defined.

(** ** The rest of the program on given inputs *)

(** A small 'a' has the word of 'A'. *)
Lemma convertToWord_ascii_witness :
  is_ascii 97%N
  /\ convertToWord asciiUpperCase (str "a")
     = (if is_alnum 97%N then Some (phonetic_word (upper_ascii 97%N))
        else None).
Proof.
  assert (H : is_ascii 97%N) by reflexivity.
  split; [exact H|].
  exact (proj1 (convertToWord_ascii asciiUpperCase asciiUpperCase_ascii
                  97%N [] H)).
Defined.

(** "JAAA" and "0AAA" have the same check: 'J' and '0' are 26 apart. *)
Lemma getCheck_one_character_witness :
  getCheck asciiUpperCase (str "JAAA") = getCheck asciiUpperCase (str "0AAA")
  <-> (74 mod 26 = 48 mod 26)%N.
Proof.
  exact (proj1 (getCheck_one_character asciiUpperCase asciiUpperCase_ascii
                  48%N 65%N 65%N 65%N 74%N)).
Defined.

(** "ABCD" and "ACBD". *)
Lemma getCheck_middle_exchange_witness :
  getCheck asciiUpperCase (str "ACBD") = getCheck asciiUpperCase (str "ABCD").
Proof.
  exact (getCheck_middle_exchange asciiUpperCase asciiUpperCase_ascii
           65%N 66%N 67%N 68%N).
Defined.

(** "A+B-", character by character. *)
Lemma getPhonetic_ascii_witness :
  Forall is_ascii (str "A+B-")
  /\ getPhonetic asciiUpperCase (str "A+B-")
     = phonetic_from asciiUpperCase true (str "A+B-").
Proof.
  assert (H : Forall is_ascii (str "A+B-")) by (repeat constructor).
  split; [exact H|].
  exact (getPhonetic_ascii asciiUpperCase asciiUpperCase_ascii (str "A+B-") H).
Defined.

(** "s1a" has the phonetic of "S1A". *)
Lemma getPhonetic_ignores_case_witness :
  Forall is_ascii (str "s1a")
  /\ getPhonetic asciiUpperCase (map upper_ascii (str "s1a"))
     = getPhonetic asciiUpperCase (str "s1a").
Proof.
  assert (H : Forall is_ascii (str "s1a")) by (repeat constructor).
  split; [exact H|].
  exact (proj2 (getPhonetic_ignores_case asciiUpperCase asciiUpperCase_ascii
                  (str "s1a") H)).
Defined.

(** "AB+" and "AB-" as [getPhonetic] renders them. *)
Lemma getPhonetic_trailing_sign_witness :
  getPhonetic asciiUpperCase (str "AB" ++ str "+")
  = getPhonetic asciiUpperCase (str "AB") ++ str " "
  /\ getPhonetic asciiUpperCase (str "AB" ++ str "-")
     = getPhonetic asciiUpperCase (str "AB") ++ str " undefined".
Proof.
  apply (getPhonetic_trailing_sign asciiUpperCase asciiUpperCase_ascii
           (str "AB")).
  - discriminate.
  - repeat constructor.
Defined.

(** "S1A+" on a blank page. *)
Lemma handleSpecialLocation_page_witness :
  handleSpecialLocation asciiUpperCase (str "S1A+") blank_page
  = match classify asciiUpperCase (str "S1A+") with
    | Some (phonetic, check) => (true, mkPage phonetic check)
    | None => (false, blank_page)
    end.
Proof.
  exact (handleSpecialLocation_page asciiUpperCase asciiUpperCase_ascii
           (str "S1A+") blank_page).
Defined.

(** The check written for "CA12". *)
Lemma handleSpecialLocation_check_witness :
  fst (handleSpecialLocation asciiUpperCase (str "CA12") blank_page) = true
  /\ getCheck asciiUpperCase (str "CA12")
     = Some (checkDiv (snd (handleSpecialLocation asciiUpperCase (str "CA12")
                              blank_page))).
Proof.
  assert (H : fst (handleSpecialLocation asciiUpperCase (str "CA12")
                     blank_page) = true) by reflexivity.
  split; [exact H|].
  apply (handleSpecialLocation_check asciiUpperCase asciiUpperCase_ascii
           (str "CA12") blank_page H); discriminate.
Defined.

(** "CA12" and "CP12". *)
Lemma two_letter_families_witness :
  Forall (fun c => is_upper_alnum c = true) (str "12")
  /\ (length (str "12") <= 4)%nat
  /\ exists check,
       getCheck asciiUpperCase (str "CP" ++ str "12") = Some check
       /\ handleSpecialLocation asciiUpperCase (str "CP" ++ str "12") blank_page
          = (true,
             mkPage (join_words (str "COLLECTION POINT"
                                 :: map phonetic_word (str "12")))
                    check).
Proof.
  assert (H : Forall (fun c => is_upper_alnum c = true) (str "12"))
    by (repeat constructor).
  assert (Hlen : (length (str "12") <= 4)%nat) by (simpl; lia).
  split; [exact H|]. split; [exact Hlen|].
  exact (proj2 (two_letter_families asciiUpperCase asciiUpperCase_ascii
                  (str "12") blank_page H Hlen)).
Defined.

(** "S1A". *)
Lemma one_letter_families_witness :
  Forall (fun c => is_upper_alnum c = true) (str "1A")
  /\ (length (str "1A") <= 4)%nat
  /\ str "1A" <> str "OB"
  /\ exists check,
       getCheck asciiUpperCase (str "S" ++ str "1A") = Some check
       /\ handleSpecialLocation asciiUpperCase (str "S" ++ str "1A") blank_page
          = (true,
             mkPage (join_words (str "SECURITY"
                                 :: map phonetic_word (str "1A")))
                    check).
Proof.
  assert (H : Forall (fun c => is_upper_alnum c = true) (str "1A"))
    by (repeat constructor).
  assert (Hlen : (length (str "1A") <= 4)%nat) by (simpl; lia).
  assert (Hob : str "1A" <> str "OB") by discriminate.
  split; [exact H|]. split; [exact Hlen|]. split; [exact Hob|].
  exact (proj2 (one_letter_families asciiUpperCase asciiUpperCase_ascii
                  (str "1A") blank_page H Hlen) Hob).
Defined.

(** "Z12A". *)
Lemma infix_families_witness :
  Forall (fun c => is_upper_alnum c = true) (str "12A")
  /\ (length (str "12A") <= 6)%nat
  /\ exists check,
       getCheck asciiUpperCase (str "Z" ++ str "12A") = Some check
       /\ handleSpecialLocation asciiUpperCase (str "Z" ++ str "12A") blank_page
          = (true,
             mkPage (join_words (map phonetic_word (firstn 2 (str "12A"))
                                 ++ [str "BULK"]
                                 ++ map phonetic_word (skipn 2 (str "12A"))))
                    check).
Proof.
  assert (H : Forall (fun c => is_upper_alnum c = true) (str "12A"))
    by (repeat constructor).
  assert (Hlen : (length (str "12A") <= 6)%nat) by (simpl; lia).
  split; [exact H|]. split; [exact Hlen|].
  exact (proj2 (infix_families asciiUpperCase asciiUpperCase_ascii
                  (str "12A") blank_page H Hlen)).
Defined.

(** "ab1" and "ab1+" pass the filter unchanged. *)
Lemma filterLocation_valid_witness :
  Forall (fun c => is_alnum c = true) (str "ab1")
  /\ fst (filterLocation asciiUpperCase (str "ab1") blank_page) = str "ab1"
  /\ fst (filterLocation asciiUpperCase (str "ab1" ++ [43%N]) blank_page)
     = str "ab1" ++ [43%N].
Proof.
  assert (H : Forall (fun c => is_alnum c = true) (str "ab1"))
    by (repeat constructor).
  split; [exact H|]. split.
  - apply (proj1 (filterLocation_valid asciiUpperCase (str "ab1") 43%N
                    blank_page H)).
    simpl. lia.
  - apply (proj2 (filterLocation_valid asciiUpperCase (str "ab1") 43%N
                    blank_page H)); reflexivity.
Defined.

(** The page for "ab1+". *)
Lemma filterLocation_page_witness :
  exists check,
    getCheck asciiUpperCase
      (map upper_ascii (filterLocation_filtered (str "ab1+"))) = Some check
    /\ filterLocation asciiUpperCase (str "ab1+") blank_page
       = (filterLocation_filtered (str "ab1+"),
          match classify asciiUpperCase
                  (map upper_ascii (filterLocation_filtered (str "ab1+"))) with
          | Some (phonetic, check') => mkPage phonetic check'
          | None =>
            mkPage (if is_empty (filterLocation_filtered (str "ab1+"))
                    then str "NONE"
                    else join_words
                           (map phonetic_word
                                (map upper_ascii
                                     (filterLocation_filtered (str "ab1+")))))
                   check
          end).
Proof.
  exact (filterLocation_page asciiUpperCase asciiUpperCase_ascii
           (str "ab1+") blank_page).
Defined.

(** "!?" leaves nothing. *)
Lemma filterLocation_nothing_witness :
  Forall (fun c => is_alnum c = false /\ is_sign c = false) (str "!?")
  /\ filterLocation asciiUpperCase (str "!?") blank_page
     = ([], mkPage (str "NONE") (str "NONE")).
Proof.
  assert (H : Forall (fun c => is_alnum c = false /\ is_sign c = false)
                     (str "!?")) by (repeat constructor).
  split; [exact H|].
  exact (filterLocation_nothing asciiUpperCase asciiUpperCase_ascii
           (str "!?") blank_page H).
Defined.


(** The check for "sob" and for "ab12". *)
Lemma filterLocation_check_witness :
  checkDiv (snd (filterLocation asciiUpperCase (str "sob") blank_page))
  = str "SIERRA"
  /\ getCheck asciiUpperCase
       (map upper_ascii (filterLocation_filtered (str "ab12")))
     = Some (checkDiv (snd (filterLocation asciiUpperCase (str "ab12")
                              blank_page))).
Proof.
  split.
  - apply (proj1 (filterLocation_check asciiUpperCase asciiUpperCase_ascii
                    (str "sob") blank_page)).
    reflexivity.
  - apply (proj2 (proj2 (filterLocation_check asciiUpperCase
                           asciiUpperCase_ascii (str "ab12") blank_page)));
      discriminate.
Defined.
